(** * password_tool.py: the wordlist generation engine

    A shallow embedding of the generation half of [password_tool.py]
    (digit splitter, case expander, leet substituter, token combiner, year
    and suffix appenders, and the [generate_wordlist] pipeline with the
    clamping done by [main]), of the score table and of the output sinks,
    followed by the properties of each component.

    Modelling choices.
    - A Python [str] is a [string]; a character is an [ascii].  The
      character tests and case maps ([isdigit], [isspace], [lower],
      [upper]) are Python's on the ASCII range; a code above 127 is an
      uncased, non-digit, non-space symbol.  Python's own classes and
      maps are wider there (more digits and spaces, case maps that can
      change the length of a string), so the statements below are kept
      independent of the classes, and of the case maps beyond this: the
      empty string stays empty and a non-empty one stays non-empty.
    - A Python [set] of strings is a [gset string]; iterating a set is
      iterating [elements] of it, an order the results never depend on.
    - A Python [int] is a [Z]; [len] and list positions are [nat]; a
      Python [float] is a primitive binary64 [float].
    - A [for] loop that mutates local variables is a left fold of a step
      function over the iterated sequence. *)

From Stdlib Require Import ZArith Ascii String List Sorted PrimFloat.
From stdpp Require Import base tactics option list sets gmap strings sorting.

#[local] Set Warnings "-clear-no-such-hyp".

Local Open Scope Z_scope.
Local Open Scope nat_scope.

(** ** Characters and strings *)

(** The characters of a string, in order: what [for ch in text] visits. *)
Definition chars (s : string) : list ascii := list_ascii_of_string s.

Definition char_code (c : ascii) : N := N_of_ascii c.

Definition in_range (lo hi : N) (c : ascii) : bool :=
  (N.leb lo (char_code c)) && (N.leb (char_code c) hi).

(** [ch.isdigit()] *)
Definition isdigit (c : ascii) : bool := in_range 48 57 c.

(** [ch.isspace()]: tab, line feed, vertical tab, form feed, carriage
    return, the four separators 28..31 and the space. *)
Definition isspace (c : ascii) : bool :=
  in_range 9 13 c || in_range 28 32 c.

Definition isupper (c : ascii) : bool := in_range 65 90 c.
Definition islower (c : ascii) : bool := in_range 97 122 c.
Definition iscased (c : ascii) : bool := isupper c || islower c.

(** [ch.lower()] and [ch.upper()] *)
Definition lower_char (c : ascii) : ascii :=
  if isupper c then ascii_of_N (char_code c + 32) else c.
Definition upper_char (c : ascii) : ascii :=
  if islower c then ascii_of_N (char_code c - 32) else c.

Fixpoint map_string (f : ascii → ascii) (s : string) : string :=
  match s with
  | EmptyString => EmptyString
  | String c s' => String (f c) (map_string f s')
  end.

(** [s.lower()], [s.upper()] *)
Definition lower (s : string) : string := map_string lower_char s.
Definition upper (s : string) : string := map_string upper_char s.

(** [s.capitalize()]: first character upper-cased, the rest lower-cased. *)
Definition capitalize (s : string) : string :=
  match s with
  | EmptyString => EmptyString
  | String c s' => String (upper_char c) (lower s')
  end.

(** [s.title()]: a cased character is upper-cased when the character before
    it is not cased, and lower-cased otherwise. *)
Fixpoint title_go (prev_cased : bool) (s : string) : string :=
  match s with
  | EmptyString => EmptyString
  | String c s' =>
      String (if prev_cased then lower_char c else upper_char c)
             (title_go (iscased c) s')
  end.
Definition title (s : string) : string := title_go false s.

(** [s.strip()] *)
Fixpoint lstrip (s : string) : string :=
  match s with
  | EmptyString => EmptyString
  | String c s' => if isspace c then lstrip s' else s
  end.
Definition rstrip (s : string) : string := String.rev (lstrip (String.rev s)).
Definition strip (s : string) : string := rstrip (lstrip s).

(** [sep.join(parts)] *)
Fixpoint join (sep : string) (parts : list string) : string :=
  match parts with
  | [] => ""
  | [x] => x
  | x :: rest => x +:+ sep +:+ join sep rest
  end.

(** ** The digit splitter: [re_split_keep_digits] *)

(** The loop variables [out], [buf] and [last]. *)
Record split_state := SplitState {
  sp_out : list string;
  sp_buf : string;
  sp_last : option bool
}.

Definition split_init : split_state := SplitState [] "" None.

(** One iteration of [for ch in text]. *)
Definition split_step (st : split_state) (ch : ascii) : split_state :=
  let cur := isdigit ch in
  match sp_last st with
  | None => SplitState (sp_out st) (String ch "") (Some cur)
  | Some last =>
      if Bool.eqb cur last
      then SplitState (sp_out st) (sp_buf st +:+ String ch "") (Some last)
      else SplitState (sp_out st ++ [sp_buf st]) (String ch "") (Some cur)
  end.

Definition split_loop (st : split_state) (text : string) : split_state :=
  fold_left split_step (chars text) st.

Definition re_split_keep_digits (text : string) : list string :=
  let st := split_loop split_init text in
  if decide (sp_buf st = "") then sp_out st else sp_out st ++ [sp_buf st].

(** ** The leet substituter: [LEET_MAP] and [leet_variants] *)

Definition LEET_MAP : gmap string (list string) :=
  list_to_map
    [ ("a", ["a"; "@"; "4"]); ("e", ["e"; "3"]); ("i", ["i"; "1"; "!"]);
      ("o", ["o"; "0"]); ("s", ["s"; "5"; "$"]); ("t", ["t"; "7"]) ].

(** [LEET_MAP.get(ch.lower(), [ch])] *)
Definition leet_choices (ch : ascii) : list string :=
  default [String ch ""] (LEET_MAP !! String (lower_char ch) "").

(** [itertools.product] of the pools: one element of each pool, the
    rightmost pool advancing fastest. *)
Fixpoint product {A} (pools : list (list A)) : list (list A) :=
  match pools with
  | [] => [[]]
  | pool :: rest => x ← pool; p ← product rest; [x :: p]
  end.

Definition leet_variants (word : string) (enable : bool) : gset string :=
  if negb enable then {[ word ]}
  else
    let choices := leet_choices <$> chars word in
    list_to_set (join "" <$> product choices).

(** ** The score table: [entropy_from_score] *)

(** The dictionary literal of the function, its values being floats. *)
Definition entropy_table : gmap Z float :=
  list_to_map [(0%Z, 0.0%float); (1%Z, 10.0%float); (2%Z, 28.0%float);
               (3%Z, 40.0%float); (4%Z, 60.0%float)].

(** [table.get(int(score), 0.0)], for an integer score. *)
Definition entropy_from_score (score : Z) : float :=
  default 0.0%float (entropy_table !! score).

(** ** The case expander: [case_variants] *)

(** [{w for w in {word, word.lower(), ...} if w}] *)
Definition case_variants (word : string) : gset string :=
  filter (λ w, w ≠ "")
    ({[ word; lower word; upper word; capitalize word; title word ]}
       : gset string).

(** ** The year and suffix appenders *)

Definition COMMON_SUFFIXES : list string :=
  ["!"; "@"; "#"; "1"; "12"; "123"; "1234"; "2020"; "2021"; "2022"; "2023";
   "2024"; "2025"; "."; "*"; "!"; "00"].

Definition SEPARATORS : list string := [""; "."; "-"; "_"].

(** The body of [for w in words]: [out.add(w)], then one [out.add] per
    suffix. *)
Definition append_step (sufs : list string) (out : gset string) (w : string)
    : gset string :=
  fold_left (λ out s, out ∪ {[ w +:+ s ]}) sufs (out ∪ {[ w ]}).

Definition append_years (words : list string) (years : list string)
    : gset string :=
  fold_left (append_step years) words ∅.

Definition add_suffixes (words : list string) (suffixes : list string)
    : gset string :=
  fold_left (append_step suffixes) words ∅.

(** ** The token combiner: [combine_tokens] *)

(** Every way to take one position out of a list: the element there and the
    elements left, in position order. *)
Fixpoint selections {A} (l : list A) : list (A * list A) :=
  match l with
  | [] => []
  | x :: l' => (x, l') :: (prod_map id (cons x) <$> selections l')
  end.

(** [itertools.permutations(pool, r)]: the tuples of [r] elements at
    pairwise different positions of [pool], in lexicographic order of the
    positions. *)
Fixpoint permutations {A} (pool : list A) (r : nat) : list (list A) :=
  match r with
  | 0 => [[]]
  | S r' => '(x, rest) ← selections pool; p ← permutations rest r'; [x :: p]
  end.

(** [range(lo, hi)] *)
Definition range (lo hi : Z) : list Z :=
  (λ i, lo + Z.of_nat i)%Z <$> seq 0 (Z.to_nat (hi - lo)).

(** The lengths [r] come from [range(1, ...)]: they are positive, so
    [permutations] is never asked for a negative length. *)
Definition combine_tokens (tokens : list string) (max_tokens_per_combo : Z)
    (separators : list string) : gset string :=
  let tokens := filter (λ t, t ≠ "") tokens in
  fold_left
    (λ combos r,
       fold_left
         (λ combos perm,
            fold_left (λ combos sep, combos ∪ {[ join sep perm ]})
                      separators combos)
         (permutations tokens (Z.to_nat r)) combos)
    (range 1 (Z.min (Z.of_nat (length tokens)) max_tokens_per_combo + 1))
    ∅.

(** ** The pipeline: [generate_wordlist] *)

(** The order of [sorted(final_set, key=lambda x: (len(x), x))]. *)
Definition key_le (x y : string) : Prop :=
  String.length x < String.length y
  ∨ (String.length x = String.length y ∧ String.le x y).

Global Instance key_le_dec : RelDecision key_le.
Proof. intros x y. unfold key_le. apply _. Defined.

(** Step 1: the loop over [raw_inputs] filling [base]. *)
Definition base_step (base : gset string) (item : string) : gset string :=
  if decide (item = "") then base
  else
    let item := strip item in
    let base := base ∪ {[ item ]} in
    base ∪ list_to_set (filter (λ p, p ≠ "") (re_split_keep_digits item)).

Definition base_tokens (raw_inputs : list string) : gset string :=
  fold_left base_step raw_inputs ∅.

(** Step 2: the loop over [base] filling [expanded]. *)
Definition case_set (include_case : bool) (tok : string) : gset string :=
  if negb include_case then {[ tok ]}
  else {[ tok; lower tok; upper tok; capitalize tok; title tok ]}.

Definition expand_step (include_leet include_case : bool)
    (expanded : gset string) (tok : string) : gset string :=
  fold_left (λ expanded cv, expanded ∪ leet_variants cv include_leet)
            (elements (case_set include_case tok)) expanded.

Definition expanded_tokens (include_leet include_case : bool)
    (base : gset string) : gset string :=
  fold_left (expand_step include_leet include_case) (elements base) ∅.

(** Steps 3 to 5: the set that is sorted at the end. *)
Definition final_set (raw_inputs years : list string)
    (include_leet include_case include_suffixes : bool)
    (separators : list string) (max_tokens_per_combo : Z) : gset string :=
  let base := base_tokens raw_inputs in
  let expanded := expanded_tokens include_leet include_case base in
  let combined :=
    combine_tokens (merge_sort String.le (elements expanded))
                   max_tokens_per_combo separators in
  let with_years :=
    match years with
    | [] => combined
    | _ => append_years (elements combined) years
    end in
  if include_suffixes then add_suffixes (elements with_years) COMMON_SUFFIXES
  else with_years.

Definition generate_wordlist (raw_inputs years : list string)
    (include_leet include_case include_suffixes : bool)
    (separators : list string) (max_tokens_per_combo max_words : Z)
    : list string :=
  let words :=
    merge_sort key_le
      (elements (final_set raw_inputs years include_leet include_case
                           include_suffixes separators max_tokens_per_combo)) in
  if decide (0 < max_words)%Z then take (Z.to_nat max_words) words else words.

(** ** The generation branch of [main] *)

(** The parsed command line, as far as generation reads it. *)
Record args := Args {
  inputs : list string;
  years : list string;
  leet : bool;
  case : bool;
  suffixes : bool;
  seps : list string;
  max_combo : Z;
  max_words : Z
}.

(** [generate_wordlist(args.inputs, ..., max(1, int(args.max_combo)),
    max(0, int(args.max_words)))] *)
Definition main_generate (a : args) : list string :=
  generate_wordlist (inputs a) (years a) (leet a) (case a) (suffixes a)
                    (seps a) (Z.max 1 (max_combo a)) (Z.max 0 (max_words a)).

(** ** The output text: [write_lines] and the [print] of [main] *)

Definition newline : string := String "010"%char "".

(** The loop of [write_lines], [for line in lines: f.write(f"{line}\n")]:
    the text that the calls of [f.write] send, in order, to the file just
    opened for writing.  Creating the directory and opening the file,
    which can fail, come before the loop and are not modelled. *)
Definition file_text (lines : list string) : string :=
  fold_left (λ content line, content +:+ (line +:+ newline)) lines "".

(** [print("\n".join(words))]: the text sent to standard output, [print]
    ending it with a newline. *)
Definition print_words (words : list string) : string :=
  join newline words +:+ newline.

(** ** Notions used by the statements *)

(** A fragment of class [b]: non-empty, and [isdigit] is [b] on each of its
    characters. *)
Definition frag_class (b : bool) (f : string) : Prop :=
  f ≠ "" ∧ Forall (λ c, isdigit c = b) (chars f).

(** Fragments whose classes alternate, the first one of class [b]. *)
Fixpoint runs (b : bool) (l : list string) : Prop :=
  match l with
  | [] => True
  | f :: l' => frag_class b f ∧ runs (negb b) l'
  end.

(** The class the fragment after [l] must have to continue the runs. *)
Definition next_class (b : bool) (l : list string) : bool :=
  Nat.iter (length l) negb b.

(** The invariant of the splitter's loop, [pre] being the characters read
    so far. *)
Definition split_inv (pre : list ascii) (st : split_state) : Prop :=
  match sp_last st with
  | None => sp_out st = [] ∧ sp_buf st = "" ∧ pre = []
  | Some b =>
      ∃ b0, runs b0 (sp_out st)
            ∧ b = next_class b0 (sp_out st)
            ∧ frag_class b (sp_buf st)
            ∧ chars (join "" (sp_out st)) ++ chars (sp_buf st) = pre
  end.

(** The number of substitution alternatives of a character: 3 for a, 2 for
    e, 3 for i, 2 for o, 3 for s, 2 for t, whatever the case, and 1 for
    every other character. *)
Definition alt_count (c : ascii) : nat :=
  match lower_char c with
  | "a" => 3 | "e" => 2 | "i" => 3 | "o" => 2 | "s" => 3 | "t" => 2
  | _ => 1
  end%char.

(** The strings an appender adds, one per [out.add] call and in call
    order: each word, followed by the word with each suffix. *)
Definition appended (words sufs : list string) : list string :=
  w ← words; w :: (String.app w <$> sufs).

(** The number of arrangements of [r] out of [n] elements:
    [n * (n - 1) * ... * (n - r + 1)]. *)
Fixpoint arrangements (n r : nat) : nat :=
  match r with
  | 0 => 1
  | S r' => n * arrangements (n - 1) r'
  end.

(** Closed decidable facts, by evaluation. *)
Ltac decide_closed := apply (bool_decide_unpack _); vm_compute; exact I.

(** * Properties *)

(** ** Strings as character lists *)

Lemma app_cons c s t : String c s +:+ t = String c (s +:+ t).
Proof. reflexivity. Qed.

Lemma app_empty_l s : "" +:+ s = s.
Proof. reflexivity. Qed.

Lemma chars_app s t : chars (s +:+ t) = chars s ++ chars t.
Proof.
  induction s as [|c s IH]; [done|].
  rewrite app_cons. unfold chars in *. simpl. by rewrite IH.
Qed.

Lemma chars_inj s t : chars s = chars t → s = t.
Proof.
  intros H. rewrite <- (string_of_list_ascii_of_string s),
    <- (string_of_list_ascii_of_string t). unfold chars in H. by rewrite H.
Qed.

Lemma chars_nil s : chars s = [] ↔ s = "".
Proof. split; [|by intros ->]. by destruct s. Qed.

Lemma app_empty_r s : s +:+ "" = s.
Proof. apply chars_inj. by rewrite chars_app, app_nil_r. Qed.

Lemma app_assoc_s s t u : (s +:+ t) +:+ u = s +:+ t +:+ u.
Proof. apply chars_inj. by rewrite !chars_app, app_assoc. Qed.

Lemma app_eq_empty s t : s +:+ t = "" → s = "" ∧ t = "".
Proof.
  intros H. apply (f_equal chars) in H. rewrite chars_app in H.
  apply app_eq_nil in H as [?%chars_nil ?%chars_nil]. done.
Qed.

Lemma join_empty_cons x rest : join "" (x :: rest) = x +:+ join "" rest.
Proof. destruct rest; [by rewrite app_empty_r|done]. Qed.

Lemma join_empty_app l1 l2 : join "" (l1 ++ l2) = join "" l1 +:+ join "" l2.
Proof.
  induction l1 as [|x l1 IH]; [done|].
  rewrite <- app_comm_cons, !join_empty_cons, IH. by rewrite app_assoc_s.
Qed.

Lemma join_nonempty sep perm :
  1 ≤ length perm → Forall (λ t, t ≠ "") perm → join sep perm ≠ "".
Proof.
  destruct perm as [|t [|t' p]]; simpl; [lia| |].
  - by intros _ [? _]%Forall_cons.
  - intros _ [? _]%Forall_cons [? _]%app_eq_empty. done.
Qed.

(** ** The digit splitter *)

Lemma next_class_cons b f l : next_class b (f :: l) = next_class (negb b) l.
Proof. unfold next_class. simpl. by rewrite <- Nat.iter_succ_r. Qed.

Lemma next_class_snoc b l f : next_class b (l ++ [f]) = negb (next_class b l).
Proof. unfold next_class. rewrite length_app, Nat.add_comm. done. Qed.

Lemma runs_snoc b l f :
  runs b l → frag_class (next_class b l) f → runs b (l ++ [f]).
Proof.
  revert b. induction l as [|x l IH]; intros b; simpl.
  - by intros _ ?.
  - intros [? ?] Hf. split; [done|]. apply IH; [done|].
    by rewrite <- (next_class_cons b x).
Qed.

Lemma runs_nonempty b l : runs b l → Forall (λ f, f ≠ "") l.
Proof.
  revert b. induction l as [|x l IH]; intros b; simpl; [by constructor|].
  intros [[? _] ?]. constructor; eauto.
Qed.

Lemma runs_homogeneous b l :
  runs b l → Forall (λ f, ∃ b', Forall (λ c, isdigit c = b') (chars f)) l.
Proof.
  revert b. induction l as [|x l IH]; intros b; simpl; [by constructor|].
  intros [[_ ?] ?]. constructor; eauto.
Qed.

Lemma runs_adjacent b l i f g c d :
  runs b l → l !! i = Some f → l !! S i = Some g →
  c ∈ chars f → d ∈ chars g → isdigit c ≠ isdigit d.
Proof.
  revert b i. induction l as [|x l IH]; intros b i Hr Hf Hg Hc Hd; [done|].
  destruct Hr as [[_ Hx] Hl]. destruct i as [|i].
  - simplify_eq/=. destruct l as [|y l]; simplify_eq/=.
    destruct Hl as [[_ Hy] _].
    rewrite Forall_forall in Hx, Hy.
    rewrite (Hx c), (Hy d) by done. by destruct b.
  - simpl in Hf, Hg. eauto.
Qed.

Lemma split_inv_init : split_inv [] split_init.
Proof. done. Qed.

(** One iteration keeps the invariant. *)
Lemma split_inv_step pre st ch :
  split_inv pre st → split_inv (pre ++ [ch]) (split_step st ch).
Proof.
  destruct st as [out buf [last|]]; unfold split_inv, split_step; simpl.
  - intros (b0 & Hr & -> & [Hne Hb] & <-).
    destruct (Bool.eqb_spec (isdigit ch) (next_class b0 out)) as [Heq|Hneq];
      simpl.
    + exists b0. split_and!; try done.
      * split; [by destruct buf|].
        rewrite chars_app. apply Forall_app. split; [done|].
        by repeat constructor.
      * by rewrite chars_app, app_assoc.
    + exists b0. split_and!.
      * by apply runs_snoc.
      * rewrite next_class_snoc. by destruct (isdigit ch), (next_class b0 out).
      * split; [done|]. by repeat constructor.
      * by rewrite join_empty_app, chars_app, join_empty_cons, app_empty_r.
  - intros (-> & -> & ->). exists (isdigit ch). split_and!; try done.
    split; [done|]. by repeat constructor.
Qed.

Lemma split_inv_loop l pre st :
  split_inv pre st → split_inv (pre ++ l) (fold_left split_step l st).
Proof.
  revert pre st. induction l as [|ch l IH]; intros pre st H; simpl.
  - by rewrite app_nil_r.
  - rewrite (cons_middle ch pre l), app_assoc. apply IH.
    by apply split_inv_step.
Qed.

(** What the function returns: alternating runs that spell the text. *)
Lemma re_split_keep_digits_runs text :
  ∃ b, runs b (re_split_keep_digits text)
       ∧ join "" (re_split_keep_digits text) = text.
Proof.
  unfold re_split_keep_digits, split_loop.
  pose proof (split_inv_loop (chars text) [] split_init split_inv_init) as H.
  simpl in H. destruct (fold_left _ _ _) as [out buf [last|]];
    unfold split_inv in H; simpl in *.
  - destruct H as (b0 & Hr & -> & [Hne Hb] & Heq).
    rewrite decide_False by done. exists b0. split.
    + apply runs_snoc; [done|]. by split.
    + apply chars_inj.
      by rewrite join_empty_app, chars_app, join_empty_cons, app_empty_r.
  - destruct H as (-> & -> & Ht). exists true. split; [done|].
    symmetry. by apply chars_nil.
Qed.

(** C5 (digit splitter).  For every input string the returned fragments are
    non-empty, their in-order concatenation is the input, every fragment is
    all digits or all non-digits, no two adjacent fragments have the same
    class, and the empty string gives the empty sequence. *)
Theorem re_split_keep_digits_correct (text : string) :
  let out := re_split_keep_digits text in
  Forall (λ f, f ≠ "") out
  ∧ join "" out = text
  ∧ Forall (λ f, Forall (λ c, isdigit c = true) (chars f)
                 ∨ Forall (λ c, isdigit c = false) (chars f)) out
  ∧ (∀ i f g c d, out !! i = Some f → out !! S i = Some g →
                  c ∈ chars f → d ∈ chars g → isdigit c ≠ isdigit d)
  ∧ re_split_keep_digits "" = [].
Proof.
  intros out. subst out.
  destruct (re_split_keep_digits_runs text) as (b & Hr & Hj).
  split_and!.
  - by eapply runs_nonempty.
  - done.
  - eapply Forall_impl; [by eapply runs_homogeneous|].
    intros f [[] ?]; auto.
  - intros i f g c d. by eapply runs_adjacent.
  - reflexivity.
Qed.

(** The splitter on ["abc123de"]: the last letter of the first fragment and
    the first digit of the second are of different classes. *)
Lemma re_split_keep_digits_correct_witness :
  re_split_keep_digits "abc123de" !! 0 = Some "abc"
  ∧ re_split_keep_digits "abc123de" !! 1 = Some "123"
  ∧ isdigit "c" ≠ isdigit "1".
Proof.
  split; [reflexivity|]. split; [reflexivity|].
  destruct (re_split_keep_digits_correct "abc123de") as (_ & _ & _ & H & _).
  apply (H 0 "abc" "123"); [reflexivity|reflexivity|decide_closed..].
Defined.

(** ** Loops that fill a set *)

(** A loop whose body adds one string per element. *)
Lemma fold_left_add {A} (g : A → string) (l : list A) (acc : gset string) :
  fold_left (λ out a, out ∪ {[ g a ]}) l acc = acc ∪ list_to_set (g <$> l).
Proof.
  revert acc. induction l as [|a l IH]; intros acc; simpl; [set_solver|].
  rewrite IH. set_solver.
Qed.

(** A loop whose body adds a set per element. *)
Lemma fold_left_union {A} (f : gset string → A → gset string)
    (G : A → gset string) (l : list A) (acc : gset string) :
  (∀ acc x, f acc x = acc ∪ G x) →
  fold_left f l acc = acc ∪ ⋃ (G <$> l).
Proof.
  intros Hf. revert acc. induction l as [|a l IH]; intros acc; simpl.
  - set_solver.
  - rewrite IH, Hf. set_solver.
Qed.

Lemma elem_of_fold_left_union {A} (f : gset string → A → gset string)
    (G : A → gset string) (l : list A) (x : string) :
  (∀ acc a, f acc a = acc ∪ G a) →
  x ∈ fold_left f l ∅ ↔ ∃ a, a ∈ l ∧ x ∈ G a.
Proof.
  intros Hf. rewrite (fold_left_union f G) by done.
  rewrite elem_of_union, elem_of_union_list. split.
  - intros [?|(X & HX & ?)]; [set_solver|].
    apply list_elem_of_fmap in HX as (a & -> & ?). eauto.
  - intros (a & ? & ?). right. exists (G a). split; [|done].
    apply list_elem_of_fmap. eauto.
Qed.

Lemma size_list_to_set_le (l : list string) :
  size (list_to_set l : gset string) ≤ length l.
Proof.
  induction l as [|x l IH]; [by rewrite list_to_set_nil, size_empty|].
  rewrite list_to_set_cons, size_union_alt, size_singleton.
  pose proof (subseteq_size (list_to_set l ∖ {[x]})
                (list_to_set l : gset string) ltac:(set_solver)).
  simpl. lia.
Qed.

(** A list fills a set of its own length exactly when it has no repeats. *)
Lemma size_list_to_set_NoDup (l : list string) :
  size (list_to_set l : gset string) = length l ↔ NoDup l.
Proof.
  split; [|apply size_list_to_set].
  induction l as [|x l IH]; [constructor|].
  rewrite list_to_set_cons. simpl length.
  intros Hs. pose proof (size_list_to_set_le l).
  destruct (decide (x ∈ l)) as [Hx|Hx].
  - assert ({[x]} ∪ list_to_set l =@{gset string} list_to_set l) as Heq
      by set_solver.
    rewrite Heq in Hs. lia.
  - rewrite size_union, size_singleton in Hs by set_solver.
    constructor; [done|]. apply IH. lia.
Qed.

(** ** The year and suffix appenders *)

Lemma append_step_eq sufs out w :
  append_step sufs out w = out ∪ list_to_set (w :: (String.app w <$> sufs)).
Proof. unfold append_step. rewrite fold_left_add. set_solver. Qed.

(** The appender's result is the set of the strings it adds. *)
Lemma append_years_eq words sufs :
  append_years words sufs = list_to_set (appended words sufs).
Proof.
  unfold append_years, appended.
  rewrite (fold_left_union _ (λ w, list_to_set (w :: (String.app w <$> sufs))))
    by apply append_step_eq.
  induction words as [|w words IH]; [set_solver|].
  rewrite fmap_cons, union_list_cons, bind_cons, list_to_set_app_L, <- IH.
  set_solver.
Qed.

Lemma add_suffixes_eq words sufs :
  add_suffixes words sufs = append_years words sufs.
Proof. reflexivity. Qed.

Lemma length_appended words sufs :
  length (appended words sufs) = length words * (1 + length sufs).
Proof.
  unfold appended. induction words as [|w words IH]; [done|].
  rewrite bind_cons, length_app, IH. simpl. rewrite length_fmap. lia.
Qed.

Lemma elem_of_appended words sufs x :
  x ∈ appended words sufs ↔
  ∃ w, w ∈ words ∧ (x = w ∨ ∃ s, s ∈ sufs ∧ x = w +:+ s).
Proof.
  unfold appended. rewrite list_elem_of_bind. split.
  - intros (w & Hx & Hw). exists w. split; [done|].
    apply elem_of_cons in Hx as [->|Hx]; [by left|right].
    apply list_elem_of_fmap in Hx as (s & -> & ?). eauto.
  - intros (w & Hw & [->|(s & Hs & ->)]); exists w; split; try done.
    + left.
    + right. apply list_elem_of_fmap. eauto.
Qed.

Lemma elem_of_append_years words sufs x :
  x ∈ append_years words sufs ↔
  ∃ w, w ∈ words ∧ (x = w ∨ ∃ s, s ∈ sufs ∧ x = w +:+ s).
Proof.
  rewrite append_years_eq, elem_of_list_to_set. apply elem_of_appended.
Qed.

(** Only the set of suffixes matters, not their order or repetitions. *)
Lemma append_years_remove_dups words sufs :
  append_years words (remove_dups sufs) = append_years words sufs.
Proof.
  apply set_eq. intros x. rewrite !elem_of_append_years.
  by setoid_rewrite elem_of_remove_dups.
Qed.

Lemma append_years_nonempty words sufs :
  (∀ w, w ∈ words → w ≠ "") → ∀ x, x ∈ append_years words sufs → x ≠ "".
Proof.
  intros Hw x (w & Hin & [->|(s & _ & ->)])%elem_of_append_years; [eauto|].
  intros [? _]%app_eq_empty. by eapply Hw.
Qed.

(** C3 (cardinality of the appenders), as the code has it.  The suffix
    appender is the year appender on another list.  The output has at most
    [|W| * (1 + d)] elements, [d] being the number of distinct entries of
    the list; it has [|W| * (1 + n)] elements, [n] being the number of
    entries, exactly when the strings [w] and [w + s], one per word and per
    list position, are pairwise distinct; with the built-in suffix list,
    which names ["!"] twice, it has at most [|W| * 17] elements. *)
Theorem appender_size (W : gset string) (sufs : list string) :
  let out := append_years (elements W) sufs in
  add_suffixes (elements W) sufs = out
  ∧ size out ≤ size W * (1 + length (remove_dups sufs))
  ∧ size out ≤ size W * (1 + length sufs)
  ∧ (size out = size W * (1 + length sufs)
     ↔ NoDup (appended (elements W) sufs))
  ∧ size (add_suffixes (elements W) COMMON_SUFFIXES) ≤ size W * 17.
Proof.
  intros out.
  assert (∀ l, size (append_years (elements W) l) ≤ size W * (1 + length l))
    as Hle.
  { intros l. rewrite append_years_eq. etrans; [apply size_list_to_set_le|].
    by rewrite length_appended. }
  split_and!.
  - done.
  - subst out. rewrite <- append_years_remove_dups. apply Hle.
  - apply Hle.
  - subst out. rewrite append_years_eq.
    rewrite <- size_list_to_set_NoDup, length_appended. done.
  - rewrite add_suffixes_eq, <- append_years_remove_dups. apply Hle.
Qed.

(** The equality case on two words and two years. *)
Lemma appender_size_witness :
  NoDup (appended (elements ({[ "a"; "b" ]} : gset string)) ["1"; "2"])
  ∧ size (append_years (elements ({[ "a"; "b" ]} : gset string)) ["1"; "2"])
    = size ({[ "a"; "b" ]} : gset string) * (1 + length ["1"; "2"]).
Proof.
  assert (NoDup (appended (elements ({[ "a"; "b" ]} : gset string))
                          ["1"; "2"])) as H by decide_closed.
  split; [exact H|].
  destruct (appender_size {[ "a"; "b" ]} ["1"; "2"]) as (_ & _ & _ & Hiff & _).
  apply Hiff. exact H.
Defined.

(** C3 as stated fails: a word that is another word plus a year collapses
    with it, and the built-in list repeats a suffix. *)
Lemma appender_size_counterexample :
  size (append_years (elements ({[ "a"; "a1" ]} : gset string)) ["1"])
    ≠ size ({[ "a"; "a1" ]} : gset string) * (1 + length ["1"])
  ∧ size (add_suffixes (elements ({[ "a" ]} : gset string)) COMMON_SUFFIXES)
    ≠ size ({[ "a" ]} : gset string) * (1 + length COMMON_SUFFIXES).
Proof. split; decide_closed. Qed.

(** C8 (identity preservation).  The output of the year appender and of
    the suffix appender contains every word of the input set. *)
Theorem appenders_superset (W : gset string) (years : list string) :
  W ⊆ append_years (elements W) years
  ∧ W ⊆ add_suffixes (elements W) COMMON_SUFFIXES.
Proof.
  assert (∀ l, W ⊆ append_years (elements W) l) as H.
  { intros l w Hw. apply elem_of_append_years. exists w.
    split; [by apply elem_of_elements|by left]. }
  split; apply H.
Qed.

(** ** The leet substituter *)

(** The substitution table, character by character: the alternatives are
    distinct single characters, as many as [alt_count] says, and those of
    an upper-case letter of the table do not include the letter itself. *)
Lemma leet_choices_facts c :
  NoDup (leet_choices c)
  ∧ Forall (λ s, String.length s = 1) (leet_choices c)
  ∧ length (leet_choices c) = alt_count c
  ∧ (isupper c = true → is_Some (LEET_MAP !! String (lower_char c) "") →
     String c "" ∉ leet_choices c).
Proof. destruct c as [[] [] [] [] [] [] [] []]; decide_closed. Qed.

Lemma elem_of_product {A} (pools : list (list A)) (p : list A) :
  p ∈ product pools ↔ Forall2 (∈) p pools.
Proof.
  revert p. induction pools as [|pool pools IH]; intros p; simpl.
  - rewrite list_elem_of_singleton. split; [by intros ->|by inversion 1].
  - rewrite list_elem_of_bind. split.
    + intros (x & Hp & Hx). apply list_elem_of_bind in Hp as (q & Hp & Hq).
      apply list_elem_of_singleton in Hp as ->.
      constructor; [done|by apply IH].
    + inversion 1 as [|x ? q ? Hx Hq]; simplify_eq. exists x. split; [|done].
      apply list_elem_of_bind. exists q.
      split; [by apply list_elem_of_singleton|by apply IH].
Qed.

Lemma length_product {A} (pools : list (list A)) :
  length (product pools) = foldr Nat.mul 1 (length <$> pools).
Proof.
  induction pools as [|pool pools IH]; [done|].
  rewrite fmap_cons. cbn [foldr product]. rewrite <- IH. clear IH.
  induction pool as [|x pool IHp]; [done|].
  rewrite bind_cons, length_app, IHp. simpl. f_equal.
  generalize (product pools). intros l. induction l; simpl; auto.
Qed.

Lemma NoDup_product {A} (pools : list (list A)) :
  Forall NoDup pools → NoDup (product pools).
Proof.
  induction 1 as [|pool pools Hp _ IH]; simpl.
  - apply NoDup_singleton.
  - apply NoDup_bind; [| |done].
    + intros x1 x2 q _ _ H1 H2.
      apply list_elem_of_bind in H1 as (? & ->%list_elem_of_singleton & _).
      apply list_elem_of_bind in H2 as (? & ?%list_elem_of_singleton & _).
      by simplify_eq.
    + intros x _. apply NoDup_bind; [| |done].
      * intros ??? _ _ ->%list_elem_of_singleton ?%list_elem_of_singleton.
        by simplify_eq.
      * intros. apply NoDup_singleton.
Qed.

(** Joining single characters: the tuple is read back from the result. *)
Lemma join_singles (p : list string) (pools : list (list string)) :
  Forall (Forall (λ s, String.length s = 1)) pools →
  Forall2 (∈) p pools →
  p = (λ a, String a "") <$> chars (join "" p).
Proof.
  intros Hpools Hp. revert Hpools.
  induction Hp as [|s pool p pools Hs _ IH]; intros Hpools; [done|].
  apply Forall_cons in Hpools as [Hpool Hpools].
  rewrite Forall_forall in Hpool. specialize (Hpool s Hs).
  destruct s as [|a [|??]]; try done.
  rewrite join_empty_cons, app_cons, app_empty_l.
  change (chars (String a ?s)) with (a :: chars s).
  rewrite fmap_cons. f_equal. by apply IH.
Qed.

Lemma leet_pools_single word :
  Forall (Forall (λ s, String.length s = 1)) (leet_choices <$> chars word).
Proof.
  apply Forall_fmap, Forall_forall. intros c _. apply leet_choices_facts.
Qed.

Lemma elem_of_leet_variants word x :
  x ∈ leet_variants word true ↔
  ∃ p, Forall2 (∈) p (leet_choices <$> chars word) ∧ x = join "" p.
Proof.
  unfold leet_variants. simpl. rewrite elem_of_list_to_set, list_elem_of_fmap.
  split; intros (p & H1 & H2); exists p.
  - by apply elem_of_product in H2.
  - by apply elem_of_product in H1.
Qed.

(** A variant has, at each position, one of the alternatives of the
    word's character there. *)
Lemma leet_variants_chars word x :
  x ∈ leet_variants word true →
  Forall2 (λ a c, String a "" ∈ leet_choices c) (chars x) (chars word).
Proof.
  intros (p & Hp & ->)%elem_of_leet_variants.
  pose proof (join_singles p _ (leet_pools_single word) Hp) as Heq.
  remember (join "" p) as x eqn:Hx. clear Hx.
  rewrite Heq in Hp. exact (proj1 (Forall2_fmap _ _ _ _ _) Hp).
Qed.

(** C4 (leet substituter).  Disabled, the result is the singleton of the
    token; enabled, its cardinality is the product over the token's
    characters of the number of alternatives of each. *)
Theorem leet_variants_size (word : string) :
  leet_variants word false = {[ word ]}
  ∧ size (leet_variants word true)
    = foldr Nat.mul 1 (alt_count <$> chars word).
Proof.
  split; [reflexivity|].
  unfold leet_variants. simpl. rewrite size_list_to_set.
  - rewrite length_fmap, length_product, <- list_fmap_compose. f_equal.
    apply list_fmap_ext. intros _ c _. apply leet_choices_facts.
  - apply NoDup_fmap_2_strong.
    + intros p q Hp%elem_of_product Hq%elem_of_product Heq.
      rewrite (join_singles p _ (leet_pools_single word) Hp).
      rewrite (join_singles q _ (leet_pools_single word) Hq).
      by rewrite Heq.
    + apply NoDup_product, Forall_fmap, Forall_forall.
      intros c _. apply leet_choices_facts.
Qed.

(** C9 (upper-case letters of the table).  A token with an upper-case
    letter whose lower-case form is a key of the table is not among its own
    leet variants; ["IT"] gives the six variants of ["it"]. *)
Theorem leet_variants_drops_uppercase (word : string) :
  (∃ c, c ∈ chars word ∧ isupper c = true
        ∧ is_Some (LEET_MAP !! String (lower_char c) "")) →
  (word ∉ leet_variants word true)
  ∧ (leet_variants "IT" true = {[ "it"; "i7"; "1t"; "17"; "!t"; "!7" ]}).
Proof.
  intros (c & Hc & Hup & Hmap). split; [|by vm_compute].
  intros H%leet_variants_chars.
  apply Forall2_same_length_lookup in H as [_ H].
  apply list_elem_of_lookup in Hc as [i Hi].
  specialize (H i c c Hi Hi).
  by apply (proj2 (proj2 (proj2 (leet_choices_facts c)))) in H.
Qed.

Lemma leet_variants_drops_uppercase_witness :
  (∃ c, c ∈ chars "Sam" ∧ isupper c = true
        ∧ is_Some (LEET_MAP !! String (lower_char c) ""))
  ∧ "Sam" ∉ leet_variants "Sam" true.
Proof.
  assert (∃ c, c ∈ chars "Sam" ∧ isupper c = true
               ∧ is_Some (LEET_MAP !! String (lower_char c) "")) as H.
  { exists "S"%char. split_and!; [decide_closed|reflexivity|decide_closed]. }
  split; [exact H|].
  apply (leet_variants_drops_uppercase "Sam" H).
Defined.

(** ** The token combiner *)

Lemma elem_of_selections {A} (l : list A) x rest :
  (x, rest) ∈ selections l ↔ ∃ l1 l2, l = l1 ++ x :: l2 ∧ rest = l1 ++ l2.
Proof.
  revert rest. induction l as [|y l IH]; intros rest; simpl.
  - split; [by intros ?%elem_of_nil|]. by intros ([|??] & ? & ? & _).
  - rewrite elem_of_cons, list_elem_of_fmap. split.
    + intros [?|([z r] & Heq & Hin)]; simplify_eq/=.
      * by exists [], l.
      * apply IH in Hin as (l1 & l2 & -> & ->). by exists (y :: l1), l2.
    + intros ([|z l1] & l2 & Heq & ->); simplify_eq/=; [by left|].
      right. exists (x, l1 ++ l2). split; [done|]. apply IH. eauto.
Qed.

(** The tuples of [permutations pool r] are the lists of length [r] that
    take each element of the pool at most as often as the pool has it. *)
Lemma elem_of_permutations {A} (pool : list A) r perm :
  perm ∈ permutations pool r ↔ length perm = r ∧ perm ⊆+ pool.
Proof.
  revert pool perm. induction r as [|r IH]; intros pool perm; simpl.
  - rewrite list_elem_of_singleton. split.
    + intros ->. split; [done|apply submseteq_nil_l].
    + intros [?%nil_length_inv _]. done.
  - rewrite list_elem_of_bind. split.
    + intros ([x rest] & Hp & (l1 & l2 & -> & ->)%elem_of_selections).
      apply list_elem_of_bind in Hp as (p & ->%list_elem_of_singleton & Hp).
      apply IH in Hp as [<- Hp]. split; [done|].
      by apply submseteq_cons_middle.
    + intros [Hlen Hsub]. destruct perm as [|x p]; [done|].
      assert (x ∈ pool) as (l1 & l2 & ->)%list_elem_of_split.
      { eapply elem_of_submseteq; [|done]. left. }
      exists (x, l1 ++ l2). split; [|apply elem_of_selections; eauto].
      apply list_elem_of_bind. exists p.
      split; [by apply list_elem_of_singleton|].
      apply IH. split; [by simplify_eq/=|].
      apply (submseteq_app_inv_l _ _ [x]). simpl.
      etrans; [done|]. by rewrite Permutation_middle.
Qed.

(** With distinct tokens, an arrangement by position is an arrangement by
    value: no token twice, every token from the pool. *)
Lemma submseteq_NoDup_iff {A} (pool perm : list A) :
  NoDup pool → perm ⊆+ pool ↔ NoDup perm ∧ ∀ t, t ∈ perm → t ∈ pool.
Proof.
  intros Hnd. split.
  - intros Hsub. split.
    + apply submseteq_Permutation in Hsub as [k Hk].
      rewrite Hk in Hnd. by apply NoDup_app in Hnd as [? _].
    + intros t Ht. by eapply elem_of_submseteq.
  - intros [? ?]. by apply NoDup_submseteq.
Qed.

Lemma elem_of_range lo hi r : r ∈ range lo hi ↔ (lo ≤ r < hi)%Z.
Proof.
  unfold range. rewrite list_elem_of_fmap. split.
  - intros (i & -> & Hi). apply elem_of_seq in Hi. lia.
  - intros ?. exists (Z.to_nat (r - lo)). split; [lia|].
    apply elem_of_seq. lia.
Qed.

Lemma range_empty lo hi : (hi ≤ lo)%Z → range lo hi = [].
Proof.
  intros H. unfold range. by replace (Z.to_nat (hi - lo)) with 0 by lia.
Qed.

(** The three nested loops, read as one set. *)
Lemma elem_of_combine_tokens tokens k seps x :
  let toks := filter (λ t, t ≠ "") tokens in
  x ∈ combine_tokens tokens k seps ↔
  ∃ r perm sep,
    (1 ≤ r ≤ Z.min (Z.of_nat (length toks)) k)%Z
    ∧ perm ∈ permutations toks (Z.to_nat r)
    ∧ sep ∈ seps ∧ x = join sep perm.
Proof.
  intros toks. unfold combine_tokens. fold toks.
  set (Gperm := λ perm : list string,
         list_to_set ((λ sep, join sep perm) <$> seps) : gset string).
  set (Gr := λ r : Z, ⋃ (Gperm <$> permutations toks (Z.to_nat r))).
  rewrite (elem_of_fold_left_union _ Gr); cycle 1.
  { intros acc r. apply (fold_left_union _ Gperm).
    intros acc' perm. apply fold_left_add. }
  split.
  - intros (r & Hr%elem_of_range & Hx). unfold Gr in Hx.
    apply elem_of_union_list in Hx as (X & HX & Hx).
    apply list_elem_of_fmap in HX as (perm & -> & Hperm).
    unfold Gperm in Hx. apply elem_of_list_to_set, list_elem_of_fmap in Hx
      as (sep & -> & Hsep).
    exists r, perm, sep. split_and!; try done; lia.
  - intros (r & perm & sep & Hr & Hperm & Hsep & ->).
    exists r. split; [apply elem_of_range; lia|].
    unfold Gr. apply elem_of_union_list. exists (Gperm perm). split.
    + apply list_elem_of_fmap. eauto.
    + unfold Gperm. apply elem_of_list_to_set, list_elem_of_fmap. eauto.
Qed.

Lemma filter_nonempty_id (tokens : list string) :
  Forall (λ t, t ≠ "") tokens → filter (λ t, t ≠ "") tokens = tokens.
Proof.
  induction 1 as [|t l Ht _ IH]; [done|].
  by rewrite filter_cons_True, IH.
Qed.

(** Every combined string is non-empty: it joins at least one token, and
    the empty tokens were filtered out. *)
Lemma combine_tokens_nonempty tokens k seps x :
  x ∈ combine_tokens tokens k seps → x ≠ "".
Proof.
  intros (r & perm & sep & Hr & Hperm & Hsep & ->)%elem_of_combine_tokens.
  apply elem_of_permutations in Hperm as [Hlen Hsub].
  apply join_nonempty; [lia|].
  apply Forall_forall. intros t Ht.
  pose proof (elem_of_submseteq _ _ _ Ht Hsub) as Hin.
  by apply list_elem_of_filter in Hin as [? _].
Qed.

(** Below 1 the bound leaves no arrangement length to try. *)
Lemma combine_tokens_lt_1 tokens k seps :
  (k < 1)%Z → combine_tokens tokens k seps = ∅.
Proof. intros Hk. unfold combine_tokens. by rewrite range_empty by lia. Qed.

(** C1 (token combiner).  For distinct non-empty tokens, [k >= 1] and any
    separators, the result is exactly the set of the strings
    [sep.join(perm)], [sep] a separator and [perm] an arrangement of
    tokens without repetition of a length from 1 to [min(len(tokens), k)];
    for ["a"; "b"], 2 and [""; "-"] it is the set of a, b, a-b, b-a, ab
    and ba. *)
Theorem combine_tokens_spec (tokens : list string) (k : Z)
    (separators : list string) :
  NoDup tokens → Forall (λ t, t ≠ "") tokens → (1 ≤ k)%Z →
  (∀ x, x ∈ combine_tokens tokens k separators ↔
        ∃ sep perm,
          sep ∈ separators
          ∧ NoDup perm ∧ (∀ t, t ∈ perm → t ∈ tokens)
          ∧ (1 ≤ Z.of_nat (length perm)
               ≤ Z.min (Z.of_nat (length tokens)) k)%Z
          ∧ x = join sep perm)
  ∧ combine_tokens ["a"; "b"] 2 [""; "-"]
    = {[ "a"; "b"; "a-b"; "b-a"; "ab"; "ba" ]}.
Proof.
  intros Hnd Hne Hk. split; [|by vm_compute].
  intros x. rewrite elem_of_combine_tokens, filter_nonempty_id by done.
  split.
  - intros (r & perm & sep & Hr & Hperm & Hsep & ->).
    apply elem_of_permutations in Hperm as [Hlen Hsub].
    apply submseteq_NoDup_iff in Hsub as [? ?]; [|done].
    exists sep, perm. split_and!; try done; lia.
  - intros (sep & perm & Hsep & Hndp & Hin & Hlen & ->).
    exists (Z.of_nat (length perm)), perm, sep. split_and!; try done; try lia.
    apply elem_of_permutations. split; [lia|].
    by apply submseteq_NoDup_iff.
Qed.

Lemma combine_tokens_spec_witness :
  NoDup ["x"; "y"; "z"] ∧ Forall (λ t, t ≠ "") ["x"; "y"; "z"] ∧ (1 ≤ 2)%Z
  ∧ ("z_x" ∈ combine_tokens ["x"; "y"; "z"] 2 ["_"] ↔
     ∃ sep perm,
       sep ∈ ["_"]
       ∧ NoDup perm ∧ (∀ t, t ∈ perm → t ∈ ["x"; "y"; "z"])
       ∧ (1 ≤ Z.of_nat (length perm)
            ≤ Z.min (Z.of_nat (length ["x"; "y"; "z"])) 2)%Z
       ∧ "z_x" = join sep perm).
Proof.
  assert (NoDup ["x"; "y"; "z"]) as H1 by decide_closed.
  assert (Forall (λ t, t ≠ "") ["x"; "y"; "z"]) as H2 by decide_closed.
  assert (1 ≤ 2)%Z as H3 by lia.
  split_and!; [exact H1|exact H2|exact H3|].
  apply (combine_tokens_spec ["x"; "y"; "z"] 2 ["_"] H1 H2 H3).
Defined.

(** ** The pipeline *)

Global Instance key_le_total : Total key_le.
Proof.
  intros x y. unfold key_le.
  destruct (lt_eq_lt_dec (String.length x) (String.length y)) as [[?|?]|?];
    [by left; left| |by right; left].
  destruct (total String.le x y); [left|right]; right; done.
Qed.

Global Instance key_le_trans : Transitive key_le.
Proof.
  intros x y z [?|[? ?]] [?|[? ?]]; unfold key_le; [left; lia..|].
  right. split; [lia|]. by etrans.
Qed.

Global Instance key_le_antisymm : AntiSymm (=) key_le.
Proof.
  intros x y [?|[? ?]] [?|[? ?]]; try lia. by apply (anti_symm String.le).
Qed.

Section pipeline.
Context (raw_inputs years : list string).
Context (include_leet include_case include_suffixes : bool).
Context (separators : list string) (max_tokens_per_combo : Z).

Local Abbreviation F :=
  (final_set raw_inputs years include_leet include_case include_suffixes
             separators max_tokens_per_combo).
Local Abbreviation run :=
  (generate_wordlist raw_inputs years include_leet include_case
                     include_suffixes separators max_tokens_per_combo).

Lemma final_set_nonempty x : x ∈ F → x ≠ "".
Proof.
  unfold final_set.
  set (combined := combine_tokens _ _ _).
  assert (∀ x, x ∈ combined → x ≠ "") as Hc.
  { intros y. apply combine_tokens_nonempty. }
  set (with_years := match years with [] => combined | _ => _ end).
  assert (∀ x, x ∈ with_years → x ≠ "") as Hy.
  { subst with_years. destruct years; [done|].
    apply append_years_nonempty. intros w ?%elem_of_elements. eauto. }
  destruct include_suffixes; [|by apply Hy].
  apply append_years_nonempty. intros w ?%elem_of_elements. eauto.
Qed.

(** The output lists candidates of the final set only. *)
Lemma elem_of_generate_wordlist max_words x : x ∈ run max_words → x ∈ F.
Proof.
  unfold generate_wordlist. intros Hx.
  assert (x ∈ merge_sort key_le (elements F)) as Hm.
  { case_decide; [by eapply subseteq_take|done]. }
  rewrite merge_sort_Permutation in Hm. by apply elem_of_elements.
Qed.

(** Zero and the negative bounds all mean no truncation. *)
Lemma generate_wordlist_unlimited max_words :
  (max_words ≤ 0)%Z → run max_words = merge_sort key_le (elements F).
Proof.
  intros H. unfold generate_wordlist. by rewrite decide_False by lia.
Qed.

(** C10 (no empty output string).  Every string of the pipeline's output
    is non-empty. *)
Theorem generate_wordlist_nonempty (max_words : Z) (x : string) :
  x ∈ generate_wordlist raw_inputs years include_leet include_case
        include_suffixes separators max_tokens_per_combo max_words →
  x ≠ "".
Proof. intros ?%elem_of_generate_wordlist. by eapply final_set_nonempty. Qed.

(** C2 (truncation).  With [max_words = N > 0] the output has
    [min(N, |F|)] strings, [F] being the final candidate set; it is sorted
    by length, then lexicographically, without repeats; its strings are
    candidates, and each is strictly before every candidate left out. *)
Theorem generate_wordlist_truncation (N : Z) :
  (0 < N)%Z →
  let F := final_set raw_inputs years include_leet include_case
                     include_suffixes separators max_tokens_per_combo in
  let out := generate_wordlist raw_inputs years include_leet include_case
               include_suffixes separators max_tokens_per_combo N in
  length out = Nat.min (Z.to_nat N) (size F)
  ∧ StronglySorted key_le out
  ∧ NoDup out
  ∧ (∀ x, x ∈ out → x ∈ F)
  ∧ (∀ x y, x ∈ out → y ∈ F → y ∉ out → key_le x y ∧ x ≠ y).
Proof.
  intros HN F out. subst F out. unfold generate_wordlist.
  rewrite decide_True by done.
  set (words := merge_sort key_le (elements F)).
  assert (words ≡ₚ elements F) as Hperm by apply merge_sort_Permutation.
  assert (StronglySorted key_le words) as Hsorted
    by apply (StronglySorted_merge_sort _).
  assert (NoDup words) as Hnd by (rewrite Hperm; apply NoDup_elements).
  rewrite <- (take_drop (Z.to_nat N) words) in Hsorted, Hnd.
  split_and!.
  - rewrite length_take. f_equal. by rewrite Hperm.
  - by apply StronglySorted_app_1_l in Hsorted.
  - by apply NoDup_app in Hnd as [? _].
  - intros x Hx%subseteq_take. rewrite Hperm in Hx.
    by apply elem_of_elements.
  - intros x y Hx Hy Hny.
    assert (y ∈ drop (Z.to_nat N) words) as Hd.
    { apply elem_of_elements in Hy. rewrite <- Hperm in Hy.
      rewrite <- (take_drop (Z.to_nat N) words) in Hy.
      apply elem_of_app in Hy as [?|?]; done. }
    split.
    + by eapply StronglySorted_app_1_elem_of.
    + intros ->. apply NoDup_app in Hnd as (_ & Hdisj & _). by eapply Hdisj.
Qed.

(** Called with a bound below 1, [generate_wordlist] itself combines
    nothing: the clamp of this bound is the caller's. *)
Lemma generate_wordlist_combo_lt_1 max_words :
  (max_tokens_per_combo < 1)%Z → run max_words = [].
Proof.
  intros Hk. unfold generate_wordlist, final_set.
  rewrite combine_tokens_lt_1 by done.
  assert (elements (∅ : gset string) = []) as He by apply elements_empty.
  assert (match years with
          | [] => ∅
          | _ :: _ => append_years (elements (∅ : gset string)) years
          end = (∅ : gset string)) as ->.
  { destruct years; [done|]. by rewrite He. }
  assert ((if include_suffixes
           then add_suffixes (elements (∅ : gset string)) COMMON_SUFFIXES
           else ∅) = (∅ : gset string)) as ->.
  { destruct include_suffixes; [|done]. by rewrite He. }
  rewrite He. change (merge_sort key_le []) with (@nil string).
  case_decide; [apply take_nil|done].
Qed.

End pipeline.

Lemma generate_wordlist_nonempty_witness :
  "Max" ∈ generate_wordlist ["Max"; "1999"] [] false false false [""; "-"] 2 0
  ∧ "Max" ≠ "".
Proof.
  assert ("Max" ∈ generate_wordlist ["Max"; "1999"] [] false false false
                    [""; "-"] 2 0) as H by decide_closed.
  split; [exact H|].
  exact (generate_wordlist_nonempty ["Max"; "1999"] [] false false false
           [""; "-"] 2 0 "Max" H).
Defined.

Lemma generate_wordlist_truncation_witness :
  (0 < 3)%Z
  ∧ length (generate_wordlist ["Max"; "1999"] [] false false false
              [""; "-"] 2 3)
    = Nat.min (Z.to_nat 3)
        (size (final_set ["Max"; "1999"] [] false false false [""; "-"] 2)).
Proof.
  assert (0 < 3)%Z as H by lia.
  split; [exact H|].
  exact (proj1 (generate_wordlist_truncation ["Max"; "1999"] [] false false
                  false [""; "-"] 2 3 H)).
Defined.

(** Step 1, read as one set: the trimmed non-empty raw inputs and their
    fragments. *)
Lemma elem_of_base_tokens raw_inputs x :
  x ∈ base_tokens raw_inputs ↔
  ∃ item, item ∈ raw_inputs ∧ item ≠ ""
          ∧ (x = strip item
             ∨ (x ∈ re_split_keep_digits (strip item) ∧ x ≠ "")).
Proof.
  unfold base_tokens.
  set (G := λ item : string,
         if decide (item = "") then (∅ : gset string)
         else {[ strip item ]}
              ∪ list_to_set (filter (λ p, p ≠ "")
                               (re_split_keep_digits (strip item)))).
  rewrite (elem_of_fold_left_union _ G); cycle 1.
  { intros acc item. unfold base_step, G. case_decide; set_solver. }
  unfold G. split.
  - intros (item & Hin & Hx). exists item. case_decide; [set_solver|].
    split_and!; try done.
    apply elem_of_union in Hx as [->%elem_of_singleton|Hx]; [by left|].
    right. by apply elem_of_list_to_set, list_elem_of_filter in Hx as [? ?].
  - intros (item & Hin & Hne & Hx). exists item. split; [done|].
    rewrite decide_False by done. apply elem_of_union.
    destruct Hx as [->|[? ?]]; [left; by apply elem_of_singleton|right].
    by apply elem_of_list_to_set, list_elem_of_filter.
Qed.

(** C6 (whitespace-only input).  The emptiness test of step 1 comes before
    the trimming: the base token set holds the empty string as soon as a
    non-empty raw input trims to nothing.  At the input [["   "]] the base
    token set is the singleton of the empty string, which the expanded
    token set holds too. *)
Theorem base_tokens_whitespace_only (raw_inputs : list string) :
  ("" ∈ base_tokens raw_inputs ↔
   ∃ item, item ∈ raw_inputs ∧ item ≠ "" ∧ strip item = "")
  ∧ strip "   " = ""
  ∧ base_tokens ["   "] = {[ "" ]}
  ∧ "" ∈ expanded_tokens false false (base_tokens ["   "]).
Proof.
  split_and!; [|reflexivity|by vm_compute|decide_closed].
  rewrite elem_of_base_tokens. split.
  - intros (item & ? & ? & [?|[_ ?]]); [|done]. by exists item.
  - intros (item & ? & ? & ?). exists item. split_and!; try done. by left.
Qed.

(** * Further properties *)

(** ** The case expander *)

Lemma length_map_string f s : String.length (map_string f s) = String.length s.
Proof. induction s; simpl; auto. Qed.

Lemma length_title_go b s : String.length (title_go b s) = String.length s.
Proof. revert b. induction s; intros b; simpl; auto. Qed.

(** The case maps keep the length of a string. *)
Lemma length_case_set word w :
  w ∈ case_set true word → String.length w = String.length word.
Proof.
  unfold case_set. simpl. rewrite !elem_of_union, !elem_of_singleton.
  intros [[[[->| ->]| ->]| ->]| ->]; unfold lower, upper, title;
    rewrite ?length_map_string, ?length_title_go; try done.
  destruct word; simpl; [done|]. unfold lower. by rewrite length_map_string.
Qed.

Lemma length_zero_empty s : String.length s = 0 ↔ s = "".
Proof. by destruct s. Qed.

Lemma elem_of_case_variants word w :
  w ∈ case_variants word ↔ w ≠ "" ∧ w ∈ case_set true word.
Proof. unfold case_variants, case_set. simpl. by rewrite elem_of_filter. Qed.

(** X1.  The variants are non-empty strings, at most five; there is none
    exactly when the word is empty, where the pipeline's own copy of the
    expression keeps the empty string. *)
Theorem case_variants_bounds (word : string) :
  set_Forall (λ w, w ≠ "") (case_variants word)
  ∧ size (case_variants word) ≤ 5
  ∧ (case_variants word = ∅ ↔ word = "")
  ∧ case_set true "" = {[ "" ]}.
Proof.
  split_and!.
  - by intros w [? ?]%elem_of_case_variants.
  - etrans; [apply (subseteq_size _ (list_to_set
      [word; lower word; upper word; capitalize word; title word]))|].
    + intros w [_ Hw]%elem_of_case_variants. revert Hw. unfold case_set. simpl.
      set_solver.
    + apply size_list_to_set_le.
  - split.
    + intros He. destruct (decide (word = "")) as [|Hne]; [done|].
      assert (word ∈ case_variants word) as Hin.
      { apply elem_of_case_variants. split; [done|].
        unfold case_set. simpl. set_solver. }
      rewrite He in Hin. by apply not_elem_of_empty in Hin.
    + intros ->. by vm_compute.
  - by vm_compute.
Qed.

(** X2.  For a non-empty word the expander returns what the pipeline's own copy
    of the expression does, the word included. *)
Theorem case_variants_pipeline (word : string) :
  word ≠ "" →
  word ∈ case_variants word ∧ case_variants word = case_set true word.
Proof.
  intros Hne. split.
  - apply elem_of_case_variants. split; [done|].
    unfold case_set. simpl. set_solver.
  - apply set_eq. intros w. rewrite elem_of_case_variants. split; [by intros [_ ?]|].
    intros Hw. split; [|done]. intros ->.
    apply length_case_set in Hw. simpl in Hw. symmetry in Hw.
    by apply length_zero_empty in Hw.
Qed.

Lemma case_variants_pipeline_witness :
  "max" ≠ ""
  ∧ "max" ∈ case_variants "max"
  ∧ case_variants "max" = case_set true "max".
Proof.
  assert ("max" ≠ "") as H by decide_closed.
  split; [exact H|]. exact (case_variants_pipeline "max" H).
Defined.

(** ** The digit splitter: the split is the only one *)

(** A prefix of one class followed by nothing or by a character of the
    other class is determined by the whole. *)
Lemma span_unique (P : ascii → bool) (u u' v v' : list ascii) :
  Forall (λ c, P c = true) u → Forall (λ c, P c = true) u' →
  (∀ c, head v = Some c → P c = false) →
  (∀ c, head v' = Some c → P c = false) →
  u ++ v = u' ++ v' → u = u' ∧ v = v'.
Proof.
  revert u'. induction u as [|a u IH]; intros u' Hu Hu' Hv Hv' Heq.
  - destruct u' as [|a' u']; [done|]. simpl in Heq. subst v.
    apply Forall_cons in Hu' as [Ha' _].
    specialize (Hv a' eq_refl). congruence.
  - destruct u' as [|a' u'].
    + simpl in Heq. subst v'. apply Forall_cons in Hu as [Ha _].
      specialize (Hv' a eq_refl). congruence.
    + simplify_eq/=. apply Forall_cons in Hu as [_ Hu].
      apply Forall_cons in Hu' as [_ Hu'].
      destruct (IH u' Hu Hu' Hv Hv' ltac:(done)) as [-> ->]. done.
Qed.

Lemma chars_cons_nonempty f : f ≠ "" → ∃ c cs, chars f = c :: cs.
Proof. destruct f as [|c f]; [done|]. intros _. by exists c, (chars f). Qed.

(** The joined runs start with a character of the first run's class. *)
Lemma runs_head b l c :
  runs b l → head (chars (join "" l)) = Some c → isdigit c = b.
Proof.
  destruct l as [|f l]; [done|]. intros [[Hne Hf] _].
  rewrite join_empty_cons, chars_app.
  destruct (chars_cons_nonempty f Hne) as (a & cs & Hc). rewrite Hc in *.
  simpl. intros [= <-]. by apply Forall_cons in Hf as [? _].
Qed.

Lemma frag_class_as b f :
  Forall (λ c, isdigit c = b) (chars f) →
  Forall (λ c, Bool.eqb (isdigit c) b = true) (chars f).
Proof.
  intros H. eapply Forall_impl; [exact H|]. intros c <-. apply Bool.eqb_reflx.
Qed.

Lemma runs_unique b b' l l' :
  runs b l → runs b' l' → join "" l = join "" l' → l = l'.
Proof.
  revert b b' l'. induction l as [|f l IH]; intros b b' l' Hl Hl' Hj.
  - destruct l' as [|f' l']; [done|]. destruct Hl' as [[Hne _] _].
    rewrite join_empty_cons in Hj. simpl in Hj. symmetry in Hj.
    by apply app_eq_empty in Hj as [? _].
  - destruct l' as [|f' l'].
    { destruct Hl as [[Hne _] _]. rewrite join_empty_cons in Hj. simpl in Hj.
      by apply app_eq_empty in Hj as [? _]. }
    destruct Hl as [[Hne Hf] Hl], Hl' as [[Hne' Hf'] Hl'].
    rewrite !join_empty_cons in Hj. apply (f_equal chars) in Hj.
    rewrite !chars_app in Hj.
    assert (b = b') as <-.
    { destruct (chars_cons_nonempty f Hne) as (a & cs & Hc).
      destruct (chars_cons_nonempty f' Hne') as (a' & cs' & Hc').
      rewrite Hc, Hc' in *. simplify_eq/=.
      apply Forall_cons in Hf as [<- _]. by apply Forall_cons in Hf' as [<- _]. }
    destruct (span_unique (λ c, Bool.eqb (isdigit c) b)
                (chars f) (chars f') (chars (join "" l)) (chars (join "" l')))
      as [Hff Hll]; [by apply frag_class_as..| | |done|].
    + intros c Hc. rewrite (runs_head _ _ _ Hl Hc). by destruct b.
    + intros c Hc. rewrite (runs_head _ _ _ Hl' Hc). by destruct b.
    + apply chars_inj in Hff as ->. f_equal.
      eapply IH; [done..|]. by apply chars_inj.
Qed.

(** X3.  Splitting undoes joining: alternating runs of digits and non-digits
    are what the splitter returns for their concatenation. *)
Theorem re_split_keep_digits_join (b : bool) (l : list string) :
  runs b l → re_split_keep_digits (join "" l) = l.
Proof.
  intros Hl.
  destruct (re_split_keep_digits_runs (join "" l)) as (b' & Hr & Hj).
  by eapply runs_unique.
Qed.

Lemma re_split_keep_digits_join_witness :
  runs false ["ab"; "12"; "c"]
  ∧ re_split_keep_digits (join "" ["ab"; "12"; "c"]) = ["ab"; "12"; "c"].
Proof.
  assert (runs false ["ab"; "12"; "c"]) as H.
  { simpl. unfold frag_class. split_and!; try done; decide_closed. }
  split; [exact H|]. exact (re_split_keep_digits_join false _ H).
Defined.

Lemma length_chars s : length (chars s) = String.length s.
Proof. induction s; unfold chars in *; simpl; auto. Qed.

Lemma length_app_s s t :
  String.length (s +:+ t) = String.length s + String.length t.
Proof. by rewrite <- !length_chars, chars_app, length_app. Qed.

(** There are at most as many fragments as characters. *)
Lemma length_join_ge l :
  Forall (λ f, f ≠ "") l → length l ≤ String.length (join "" l).
Proof.
  induction 1 as [|f l Hf _ IH]; [done|].
  rewrite join_empty_cons, length_app_s. destruct f; [done|]. simpl. lia.
Qed.

(** X4.  A non-empty text of one class is returned whole, and so is every
    fragment of any text when it is split again; there are at most as
    many fragments as characters. *)
Theorem re_split_keep_digits_whole (text : string) :
  (text ≠ "" → (∃ b, Forall (λ c, isdigit c = b) (chars text)) →
   re_split_keep_digits text = [text])
  ∧ Forall (λ f, re_split_keep_digits f = [f]) (re_split_keep_digits text)
  ∧ length (re_split_keep_digits text) ≤ String.length text.
Proof.
  assert (∀ t b, t ≠ "" → Forall (λ c, isdigit c = b) (chars t) →
                 re_split_keep_digits t = [t]) as H.
  { intros t b Hne Ht.
    destruct (re_split_keep_digits_runs t) as (b' & Hr & Hj).
    apply (runs_unique b' b _ [t]); [done| |done]. by split. }
  split; [intros ? [b ?]; by eapply H|].
  destruct (re_split_keep_digits_runs text) as (b & Hr & Hj).
  pose proof (runs_nonempty _ _ Hr) as Hne.
  pose proof (runs_homogeneous _ _ Hr) as Hh.
  split.
  - apply Forall_forall. intros f Hf.
    rewrite Forall_forall in Hne, Hh. destruct (Hh f Hf) as [b' ?].
    eapply H; eauto.
  - rewrite <- Hj at 2. by apply length_join_ge.
Qed.

Lemma re_split_keep_digits_whole_witness :
  "john" ≠ "" ∧ (∃ b, Forall (λ c, isdigit c = b) (chars "john"))
  ∧ re_split_keep_digits "john" = ["john"].
Proof.
  assert ("john" ≠ "") as H1 by decide_closed.
  assert (∃ b, Forall (λ c, isdigit c = b) (chars "john")) as H2.
  { exists false. decide_closed. }
  split_and!; [exact H1|exact H2|].
  exact (proj1 (re_split_keep_digits_whole "john") H1 H2).
Defined.

(** ** The leet substituter: the variants, position by position *)

(** Whether a character is among its own alternatives: all but the
    upper-case letters of the table. *)
Lemma leet_choices_self c :
  String c "" ∈ leet_choices c ↔
  ¬ (isupper c = true ∧ is_Some (LEET_MAP !! String (lower_char c) "")).
Proof. destruct c as [[] [] [] [] [] [] [] []]; decide_closed. Qed.

Lemma join_single_chars (l : list ascii) :
  chars (join "" ((λ a, String a "") <$> l)) = l.
Proof.
  induction l as [|a l IH]; [done|].
  rewrite fmap_cons, join_empty_cons, chars_app, IH. done.
Qed.

Lemma elem_of_leet_variants_chars word x :
  x ∈ leet_variants word true ↔
  Forall2 (λ a c, String a "" ∈ leet_choices c) (chars x) (chars word).
Proof.
  split; [apply leet_variants_chars|].
  intros H. apply elem_of_leet_variants.
  exists ((λ a, String a "") <$> chars x). split.
  - by apply Forall2_fmap.
  - apply chars_inj. by rewrite join_single_chars.
Qed.

Lemma length_leet_variants word enable x :
  x ∈ leet_variants word enable → String.length x = String.length word.
Proof.
  destruct enable; intros Hx.
  - apply elem_of_leet_variants_chars, Forall2_length in Hx.
    by rewrite <- !length_chars.
  - unfold leet_variants in Hx. simpl in Hx.
    by apply elem_of_singleton in Hx as ->.
Qed.

(** X5.  The variants of a word are the strings that have, at each position,
    one of the alternatives of the word's character there; whatever the
    flag, they are as long as the word. *)
Theorem leet_variants_positions (word x : string) :
  (x ∈ leet_variants word true ↔
   Forall2 (λ a c, String a "" ∈ leet_choices c) (chars x) (chars word))
  ∧ (∀ enable, x ∈ leet_variants word enable →
               String.length x = String.length word).
Proof.
  split; [apply elem_of_leet_variants_chars|].
  intros enable. apply length_leet_variants.
Qed.

Lemma leet_variants_positions_witness :
  "P@55" ∈ leet_variants "Pass" true
  ∧ String.length "P@55" = String.length "Pass".
Proof.
  assert ("P@55" ∈ leet_variants "Pass" true) as H by decide_closed.
  split; [exact H|].
  exact (proj2 (leet_variants_positions "Pass" "P@55") true H).
Defined.

(** X6.  A word is among its own variants exactly when it has no upper-case
    letter of the table. *)
Theorem leet_variants_self (word : string) :
  word ∈ leet_variants word true ↔
  Forall (λ c, ¬ (isupper c = true
                  ∧ is_Some (LEET_MAP !! String (lower_char c) "")))
         (chars word).
Proof.
  rewrite elem_of_leet_variants_chars. split.
  - intros H. apply Forall_forall. intros c [i Hi]%list_elem_of_lookup.
    apply leet_choices_self.
    by apply (proj2 (proj1 (Forall2_same_length_lookup _ _ _) H) i c c).
  - intros H. apply Forall_Forall2_diag.
    eapply Forall_impl; [exact H|]. intros c. apply leet_choices_self.
Qed.

(** ** The appenders: only the sets of words and suffixes matter *)

(** X7.  The result depends on which words and which suffixes are given, not
    on their order or repetition; with no suffix it is the set of the
    words. *)
Theorem append_years_sets (words words' years years' : list string) :
  (∀ w, w ∈ words ↔ w ∈ words') → (∀ y, y ∈ years ↔ y ∈ years') →
  append_years words years = append_years words' years'
  ∧ add_suffixes words years = add_suffixes words' years'
  ∧ append_years words [] = list_to_set words.
Proof.
  intros Hw Hy.
  assert (append_years words years = append_years words' years') as H.
  { apply set_eq. intros x. rewrite !elem_of_append_years.
    setoid_rewrite Hw. by setoid_rewrite Hy. }
  split_and!; [done|done|].
  apply set_eq. intros x. rewrite elem_of_append_years, elem_of_list_to_set.
  split.
  - intros (w & ? & [->|(s & []%elem_of_nil & _)]). done.
  - intros ?. exists x. split; [done|by left].
Qed.

Lemma append_years_sets_witness :
  (∀ w, w ∈ ["a"; "b"] ↔ w ∈ ["b"; "a"; "b"])
  ∧ (∀ y, y ∈ ["1"; "2"] ↔ y ∈ ["2"; "1"])
  ∧ append_years ["a"; "b"] ["1"; "2"] = append_years ["b"; "a"; "b"] ["2"; "1"].
Proof.
  assert (∀ w : string, w ∈ ["a"; "b"] ↔ w ∈ ["b"; "a"; "b"]) as H1.
  { intros w. rewrite !elem_of_cons, !elem_of_nil. tauto. }
  assert (∀ y : string, y ∈ ["1"; "2"] ↔ y ∈ ["2"; "1"]) as H2.
  { intros y. rewrite !elem_of_cons, !elem_of_nil. tauto. }
  split_and!; [exact H1|exact H2|].
  exact (proj1 (append_years_sets _ _ _ _ H1 H2)).
Defined.

(** ** The token combiner, for any token list *)

Lemma elem_of_combine_tokens_submseteq tokens k seps x :
  x ∈ combine_tokens tokens k seps ↔
  ∃ sep perm,
    sep ∈ seps ∧ perm ⊆+ filter (λ t, t ≠ "") tokens
    ∧ (1 ≤ Z.of_nat (length perm) ≤ k)%Z ∧ x = join sep perm.
Proof.
  rewrite elem_of_combine_tokens. split.
  - intros (r & perm & sep & Hr & [Hlen Hsub]%elem_of_permutations & Hsep & ->).
    exists sep, perm. split_and!; try done; lia.
  - intros (sep & perm & Hsep & Hsub & Hlen & ->).
    exists (Z.of_nat (length perm)), perm, sep.
    pose proof (submseteq_length _ _ Hsub).
    split_and!; try done; try lia.
    apply elem_of_permutations. split; [lia|done].
Qed.

(** X8.  What the combiner returns for any tokens, repeated and empty ones
    included: the joins, with a separator, of the lists of 1 to [k] tokens
    that take each non-empty token at most as often as the list has it. *)
Theorem combine_tokens_members (tokens : list string) (k : Z)
    (seps : list string) (x : string) :
  x ∈ combine_tokens tokens k seps ↔
  ∃ sep perm,
    sep ∈ seps ∧ perm ⊆+ filter (λ t, t ≠ "") tokens
    ∧ (1 ≤ Z.of_nat (length perm) ≤ k)%Z ∧ x = join sep perm.
Proof. apply elem_of_combine_tokens_submseteq. Qed.

Lemma combine_tokens_empty_iff tokens k seps :
  combine_tokens tokens k seps = ∅ ↔
  (k < 1)%Z ∨ seps = [] ∨ Forall (λ t, t = "") tokens.
Proof.
  split.
  - intros He.
    destruct (decide (k < 1)%Z) as [|Hk]; [by left|].
    destruct seps as [|sep seps]; [by right; left|].
    right; right. apply Forall_forall. intros t Ht.
    destruct (decide (t = "")) as [|Hne]; [done|]. exfalso.
    assert (t ∈ combine_tokens tokens k (sep :: seps)) as Hin.
    { apply elem_of_combine_tokens_submseteq. exists sep, [t].
      split_and!; [left| |simpl; lia..|done].
      apply singleton_submseteq_l. by apply list_elem_of_filter. }
    rewrite He in Hin. by apply not_elem_of_empty in Hin.
  - intros H. apply set_eq. intros x.
    split; [|by intros ?%not_elem_of_empty].
    intros (sep & perm & Hsep & Hsub & Hlen & ->)
      %elem_of_combine_tokens_submseteq.
    destruct H as [?|[->|Hall]]; [lia|by apply elem_of_nil in Hsep|].
    destruct perm as [|t perm]; [simpl in Hlen; lia|].
    assert (t ∈ filter (λ t, t ≠ "") tokens) as [Hne Ht]%list_elem_of_filter.
    { eapply elem_of_submseteq; [|done]. left. }
    rewrite Forall_forall in Hall. by specialize (Hall t Ht).
Qed.

(** X9.  The combiner returns nothing exactly when the bound is below 1, there
    is no separator, or there is no non-empty token. *)
Theorem combine_tokens_empty (tokens : list string) (k : Z)
    (seps : list string) :
  combine_tokens tokens k seps = ∅ ↔
  (k < 1)%Z ∨ seps = [] ∨ Forall (λ t, t = "") tokens.
Proof. apply combine_tokens_empty_iff. Qed.

(** X10.  A larger bound only adds candidates, and a bound beyond the number of
    tokens adds none. *)
Theorem combine_tokens_bound (tokens : list string) (k k' : Z)
    (seps : list string) :
  (k ≤ k')%Z →
  combine_tokens tokens k seps ⊆ combine_tokens tokens k' seps
  ∧ ((Z.of_nat (length tokens) ≤ k)%Z →
     combine_tokens tokens k' seps = combine_tokens tokens k seps).
Proof.
  intros Hk.
  assert (combine_tokens tokens k seps ⊆ combine_tokens tokens k' seps) as Hs.
  { intros x (sep & perm & ? & ? & ? & ->)%elem_of_combine_tokens_submseteq.
    apply elem_of_combine_tokens_submseteq. exists sep, perm.
    split_and!; try done; lia. }
  split; [done|]. intros Hlen. apply set_eq. intros x. split; [|apply Hs].
  intros (sep & perm & ? & Hsub & ? & ->)%elem_of_combine_tokens_submseteq.
  apply elem_of_combine_tokens_submseteq. exists sep, perm.
  pose proof (submseteq_length _ _ Hsub) as Hl.
  pose proof (length_filter (λ t, t ≠ "") tokens).
  split_and!; try done; lia.
Qed.

Lemma combine_tokens_bound_witness :
  (2 ≤ 7)%Z ∧ (Z.of_nat (length ["a"; "b"]) ≤ 2)%Z
  ∧ combine_tokens ["a"; "b"] 7 ["-"] = combine_tokens ["a"; "b"] 2 ["-"].
Proof.
  assert (2 ≤ 7)%Z as H1 by lia.
  assert (Z.of_nat (length ["a"; "b"]) ≤ 2)%Z as H2 by (simpl; lia).
  split_and!; [exact H1|exact H2|].
  exact (proj2 (combine_tokens_bound ["a"; "b"] 2 7 ["-"] H1) H2).
Defined.

Lemma combine_tokens_ext tokens tokens' k seps seps' :
  filter (λ t, t ≠ "") tokens ≡ₚ filter (λ t, t ≠ "") tokens' →
  (∀ s, s ∈ seps ↔ s ∈ seps') →
  combine_tokens tokens k seps = combine_tokens tokens' k seps'.
Proof.
  intros Ht Hs. apply set_eq. intros x.
  rewrite !elem_of_combine_tokens_submseteq.
  setoid_rewrite Hs. by setoid_rewrite Ht.
Qed.

(** X11.  The order of the tokens and of the separators does not matter. *)
Theorem combine_tokens_order (tokens tokens' : list string) (k : Z)
    (seps seps' : list string) :
  tokens ≡ₚ tokens' → (∀ s, s ∈ seps ↔ s ∈ seps') →
  combine_tokens tokens k seps = combine_tokens tokens' k seps'.
Proof.
  intros Ht Hs. apply combine_tokens_ext; [|done]. by rewrite Ht.
Qed.

Lemma combine_tokens_order_witness :
  ["a"; "b"; "c"] ≡ₚ ["c"; "a"; "b"]
  ∧ (∀ s, s ∈ ["-"; "_"] ↔ s ∈ ["_"; "-"])
  ∧ combine_tokens ["a"; "b"; "c"] 2 ["-"; "_"]
    = combine_tokens ["c"; "a"; "b"] 2 ["_"; "-"].
Proof.
  assert (["a"; "b"; "c"] ≡ₚ ["c"; "a"; "b"]) as H1 by decide_closed.
  assert (∀ s : string, s ∈ ["-"; "_"] ↔ s ∈ ["_"; "-"]) as H2.
  { intros s. rewrite !elem_of_cons, !elem_of_nil. tauto. }
  split_and!; [exact H1|exact H2|].
  exact (combine_tokens_order _ _ 2 _ _ H1 H2).
Defined.

(** ** The token combiner: how many candidates *)

Lemma length_bind_const {A B} (f : A → list B) (l : list A) (c : nat) :
  (∀ a, a ∈ l → length (f a) = c) → length (l ≫= f) = length l * c.
Proof.
  induction l as [|a l IH]; intros H; [done|].
  rewrite bind_cons, length_app, IH, (H a) by set_solver. simpl. lia.
Qed.

Lemma length_bind_sum {A B} (f : A → list B) (l : list A) :
  length (l ≫= f) = sum_list (length ∘ f <$> l).
Proof.
  induction l as [|a l IH]; [done|].
  rewrite bind_cons, length_app, IH. done.
Qed.

Lemma length_selections {A} (l : list A) : length (selections l) = length l.
Proof. induction l; simpl; [done|]. by rewrite length_fmap, IHl. Qed.

(** [permutations] yields as many tuples as there are arrangements. *)
Lemma length_permutations {A} (pool : list A) r :
  length (permutations pool r) = arrangements (length pool) r.
Proof.
  revert pool. induction r as [|r IH]; intros pool; [done|].
  cbn [permutations arrangements].
  rewrite (length_bind_const _ _ (arrangements (length pool - 1) r)).
  { by rewrite length_selections. }
  intros [x rest] (l1 & l2 & -> & ->)%elem_of_selections.
  rewrite (length_bind_const _ _ 1) by done.
  rewrite IH, !length_app, Nat.mul_1_r. simpl. f_equal. lia.
Qed.

(** X12.  The number of candidates is at most the number of separators times
    the number of arrangements of 1 to [min(n, k)] of the [n] non-empty
    tokens. *)
Theorem combine_tokens_size (tokens : list string) (k : Z)
    (seps : list string) :
  let n := length (filter (λ t, t ≠ "") tokens) in
  size (combine_tokens tokens k seps)
  ≤ length seps
    * sum_list (arrangements n <$> seq 1 (Nat.min n (Z.to_nat k))).
Proof.
  intros n.
  set (toks := filter (λ t, t ≠ "") tokens) in *.
  set (all := r ← seq 1 (Nat.min n (Z.to_nat k));
              perm ← permutations toks r;
              (λ sep, join sep perm) <$> seps).
  assert (combine_tokens tokens k seps ⊆ list_to_set all) as Hsub.
  { intros x (r & perm & sep & Hr & Hperm & Hsep & ->)%elem_of_combine_tokens.
    fold toks in Hr, Hperm. apply elem_of_list_to_set.
    apply list_elem_of_bind. exists (Z.to_nat r). split; [|apply elem_of_seq; lia].
    apply list_elem_of_bind. exists perm. split; [|done].
    apply list_elem_of_fmap. eauto. }
  etrans; [apply (subseteq_size _ _ Hsub)|].
  etrans; [apply size_list_to_set_le|].
  unfold all. rewrite length_bind_sum.
  generalize (seq 1 (Nat.min n (Z.to_nat k))). intros rs.
  induction rs as [|r rs IH]; [simpl; lia|].
  rewrite !fmap_cons. cbn [sum_list sum_list_with]. 
  rewrite Nat.mul_add_distr_l. apply Nat.add_le_mono; [|exact IH].
  unfold compose.
  rewrite (length_bind_const _ _ (length seps)).
  - rewrite length_permutations. unfold id. subst n.
    by rewrite Nat.mul_comm.
  - intros perm _. by rewrite length_fmap.
Qed.

(** ** The pipeline, stage by stage *)

(** Step 2, read as one set. *)
Lemma elem_of_expanded_tokens include_leet include_case base x :
  x ∈ expanded_tokens include_leet include_case base ↔
  ∃ tok cv, tok ∈ base ∧ cv ∈ case_set include_case tok
            ∧ x ∈ leet_variants cv include_leet.
Proof.
  unfold expanded_tokens.
  set (G := λ tok : string,
         ⋃ ((λ cv, leet_variants cv include_leet)
              <$> elements (case_set include_case tok)) : gset string).
  rewrite (elem_of_fold_left_union _ G); cycle 1.
  { intros acc tok. unfold expand_step.
    by apply (fold_left_union _ (λ cv, leet_variants cv include_leet)). }
  unfold G. split.
  - intros (tok & Htok%elem_of_elements & (X & HX & Hx)%elem_of_union_list).
    apply list_elem_of_fmap in HX as (cv & -> & Hcv%elem_of_elements). eauto.
  - intros (tok & cv & Htok & Hcv & Hx). exists tok.
    split; [by apply elem_of_elements|].
    apply elem_of_union_list. exists (leet_variants cv include_leet).
    split; [|done]. apply list_elem_of_fmap. exists cv.
    split; [done|by apply elem_of_elements].
Qed.

Section stages.
Context (raw_inputs years : list string).
Context (include_leet include_case include_suffixes : bool).
Context (separators : list string) (max_tokens_per_combo : Z).

Local Abbreviation combined :=
  (combine_tokens
     (merge_sort String.le
        (elements (expanded_tokens include_leet include_case
                     (base_tokens raw_inputs))))
     max_tokens_per_combo separators).
Local Abbreviation F :=
  (final_set raw_inputs years include_leet include_case include_suffixes
             separators max_tokens_per_combo).
Local Abbreviation run :=
  (generate_wordlist raw_inputs years include_leet include_case
                     include_suffixes separators max_tokens_per_combo).

(** Steps 4 and 5, read as one set: a combined string, then nothing or a
    year, then nothing or a common suffix when suffixes are enabled. *)
Lemma elem_of_final_set x :
  x ∈ F ↔
  ∃ c y s, c ∈ combined
           ∧ (y = "" ∨ y ∈ years)
           ∧ (s = "" ∨ (include_suffixes = true ∧ s ∈ COMMON_SUFFIXES))
           ∧ x = (c +:+ y) +:+ s.
Proof.
  unfold final_set.
  set (with_years := match years with [] => combined | _ => _ end).
  assert (∀ z, z ∈ with_years ↔
               ∃ c y, c ∈ combined ∧ (y = "" ∨ y ∈ years) ∧ z = c +:+ y)
    as Hy.
  { intros z. subst with_years. destruct years as [|y0 ys] eqn:Hys.
    - split.
      + intros ?. exists z, "". by rewrite app_empty_r; auto.
      + intros (c & y & ? & [->|[]%elem_of_nil] & ->). by rewrite app_empty_r.
    - rewrite elem_of_append_years. split.
      + intros (c & Hc%elem_of_elements & [->|(y & ? & ->)]).
        * exists c, "". by rewrite app_empty_r; auto.
        * exists c, y. auto.
      + intros (c & y & Hc & [->|Hin] & ->); exists c;
          (split; [by apply elem_of_elements|]).
        * left. by rewrite app_empty_r.
        * right. eauto. }
  destruct include_suffixes.
  - rewrite elem_of_append_years. split.
    + intros (w & (c & y & ? & ? & ->)%elem_of_elements%Hy & Hx).
      destruct Hx as [->|(s & ? & ->)].
      * exists c, y, "". by rewrite app_empty_r; auto.
      * exists c, y, s. split_and!; auto.
    + intros (c & y & s & ? & ? & Hs & ->). exists (c +:+ y).
      split; [apply elem_of_elements, Hy; eauto|].
      destruct Hs as [->|[_ ?]]; [left; by rewrite app_empty_r|right; eauto].
  - rewrite Hy. split.
    + intros (c & y & ? & ? & ->). exists c, y, "".
      by rewrite app_empty_r; auto.
    + intros (c & y & s & ? & ? & [->|[? _]] & ->); [|done].
      exists c, y. by rewrite app_empty_r.
Qed.

(** X13.  Every candidate is a combined string, then nothing or a year, then
    nothing or a built-in suffix (only when suffixes are enabled). *)
Theorem final_set_members (x : string) :
  x ∈ final_set raw_inputs years include_leet include_case include_suffixes
        separators max_tokens_per_combo ↔
  ∃ c y s,
    c ∈ combine_tokens
          (merge_sort String.le
             (elements (expanded_tokens include_leet include_case
                          (base_tokens raw_inputs))))
          max_tokens_per_combo separators
    ∧ (y = "" ∨ y ∈ years)
    ∧ (s = "" ∨ (include_suffixes = true ∧ s ∈ COMMON_SUFFIXES))
    ∧ x = (c +:+ y) +:+ s.
Proof. apply elem_of_final_set. Qed.

Lemma generate_wordlist_sorted max_words :
  run max_words
  = (if decide (0 < max_words)%Z
     then take (Z.to_nat max_words) (merge_sort key_le (elements F))
     else merge_sort key_le (elements F)).
Proof. reflexivity. Qed.

(** X14.  Without a positive bound the output lists the whole final set, each
    candidate once, by length and then lexicographically. *)
Theorem generate_wordlist_unbounded (max_words : Z) :
  (max_words ≤ 0)%Z →
  let out := generate_wordlist raw_inputs years include_leet include_case
               include_suffixes separators max_tokens_per_combo max_words in
  (∀ x, x ∈ out ↔ x ∈ final_set raw_inputs years include_leet include_case
                        include_suffixes separators max_tokens_per_combo)
  ∧ NoDup out ∧ StronglySorted key_le out
  ∧ length out = size (final_set raw_inputs years include_leet include_case
                         include_suffixes separators max_tokens_per_combo).
Proof.
  intros Hn out. subst out. rewrite generate_wordlist_unlimited by done.
  assert (merge_sort key_le (elements F) ≡ₚ elements F) as Hp
    by apply merge_sort_Permutation.
  split_and!.
  - intros x. by rewrite Hp, elem_of_elements.
  - rewrite Hp. apply NoDup_elements.
  - apply (StronglySorted_merge_sort _).
  - by rewrite Hp.
Qed.

(** X15.  A bounded output is the start of the unbounded one, and of every
    output with a larger bound. *)
Theorem generate_wordlist_prefix (N M : Z) :
  (0 < N)%Z → (N ≤ M)%Z →
  generate_wordlist raw_inputs years include_leet include_case
    include_suffixes separators max_tokens_per_combo N
  = take (Z.to_nat N)
      (generate_wordlist raw_inputs years include_leet include_case
         include_suffixes separators max_tokens_per_combo M)
  ∧ generate_wordlist raw_inputs years include_leet include_case
      include_suffixes separators max_tokens_per_combo N
    = take (Z.to_nat N)
        (generate_wordlist raw_inputs years include_leet include_case
           include_suffixes separators max_tokens_per_combo 0).
Proof.
  intros HN HM. rewrite !generate_wordlist_sorted.
  rewrite !decide_True, (decide_False (P := (0 < 0)%Z)) by lia.
  split; [|done]. rewrite take_take. f_equal. lia.
Qed.

End stages.

(** ** The pipeline and its inputs *)

Lemma length_case_set_any include_case tok cv :
  cv ∈ case_set include_case tok → String.length cv = String.length tok.
Proof.
  destruct include_case; [apply length_case_set|].
  unfold case_set. simpl. by intros ->%elem_of_singleton.
Qed.

Lemma case_set_self include_case tok : tok ∈ case_set include_case tok.
Proof. destruct include_case; unfold case_set; simpl; set_solver. Qed.

(** An expanded token is as long as the base token it comes from. *)
Lemma expanded_tokens_length include_leet include_case base x :
  x ∈ expanded_tokens include_leet include_case base →
  ∃ tok, tok ∈ base ∧ String.length x = String.length tok.
Proof.
  intros (tok & cv & ? & Hcv & Hx)%elem_of_expanded_tokens. exists tok.
  split; [done|]. apply length_leet_variants in Hx.
  apply length_case_set_any in Hcv. congruence.
Qed.

Lemma leet_choices_inhabited c : ∃ a, String a "" ∈ leet_choices c.
Proof.
  destruct (leet_choices_facts c) as (_ & Hlen & Hcount & _).
  assert (length (leet_choices c) ≠ 0) as Hne.
  { destruct c as [[] [] [] [] [] [] [] []]; decide_closed. }
  destruct (leet_choices c) as [|s l]; [done|].
  apply Forall_cons in Hlen as [Hs _].
  destruct s as [|a [|??]]; try done. exists a. left.
Qed.

Lemma leet_variants_inhabited word enable : ∃ x, x ∈ leet_variants word enable.
Proof.
  destruct enable; [|exists word; unfold leet_variants; simpl;
                      by apply elem_of_singleton].
  assert (∃ l, Forall2 (λ a c, String a "" ∈ leet_choices c) l (chars word))
    as [l Hl].
  { induction (chars word) as [|c cs [l IH]]; [by exists []|].
    destruct (leet_choices_inhabited c) as [a Ha].
    exists (a :: l). by constructor. }
  exists (string_of_list_ascii l). apply elem_of_leet_variants_chars.
  unfold chars at 1. by rewrite list_ascii_of_string_of_list_ascii.
Qed.

(** The base tokens that are not empty come from the raw inputs that are
    not blank. *)
Lemma base_tokens_nonblank raw_inputs t :
  t ≠ "" →
  t ∈ base_tokens raw_inputs ↔
  t ∈ base_tokens (filter (λ i, strip i ≠ "") raw_inputs).
Proof.
  intros Hne. rewrite !elem_of_base_tokens. split.
  - intros (item & Hin & Hitem & Ht). exists item. split_and!; try done.
    apply list_elem_of_filter. split; [|done].
    intros Hs. rewrite Hs in Ht. destruct Ht as [?|[[]%elem_of_nil _]]; done.
  - intros (item & [_ Hin]%list_elem_of_filter & Hitem & Ht). eauto.
Qed.

(** The combiner's result for a token set depends on its non-empty
    tokens only. *)
Lemma combine_tokens_of_sets (E E' : gset string) k seps :
  (∀ t, t ≠ "" → t ∈ E ↔ t ∈ E') →
  combine_tokens (merge_sort String.le (elements E)) k seps
  = combine_tokens (merge_sort String.le (elements E')) k seps.
Proof.
  intros H. apply combine_tokens_ext; [|done].
  apply NoDup_Permutation.
  - apply NoDup_filter. rewrite merge_sort_Permutation. apply NoDup_elements.
  - apply NoDup_filter. rewrite merge_sort_Permutation. apply NoDup_elements.
  - intros t. rewrite !list_elem_of_filter, !merge_sort_Permutation,
      !elem_of_elements. naive_solver.
Qed.

Lemma final_set_ext raw raw' ys ys' include_leet include_case
    include_suffixes seps seps' k :
  combine_tokens (merge_sort String.le (elements
      (expanded_tokens include_leet include_case (base_tokens raw)))) k seps
  = combine_tokens (merge_sort String.le (elements
      (expanded_tokens include_leet include_case (base_tokens raw')))) k seps'
  → (∀ y, y ∈ ys ↔ y ∈ ys') →
  final_set raw ys include_leet include_case include_suffixes seps k
  = final_set raw' ys' include_leet include_case include_suffixes seps' k.
Proof.
  intros Hc Hy. apply set_eq. intros x. rewrite !elem_of_final_set, Hc.
  by setoid_rewrite Hy.
Qed.

Lemma generate_wordlist_ext raw raw' ys ys' include_leet include_case
    include_suffixes seps seps' k n :
  final_set raw ys include_leet include_case include_suffixes seps k
  = final_set raw' ys' include_leet include_case include_suffixes seps' k →
  generate_wordlist raw ys include_leet include_case include_suffixes seps k n
  = generate_wordlist raw' ys' include_leet include_case include_suffixes
      seps' k n.
Proof. intros H. unfold generate_wordlist. by rewrite H. Qed.

(** X16.  The output depends on which raw inputs, years and separators are
    given, not on their order or repetition. *)
Theorem generate_wordlist_inputs_as_sets
    (raw raw' ys ys' seps seps' : list string)
    (include_leet include_case include_suffixes : bool) (k n : Z) :
  (∀ i, i ∈ raw ↔ i ∈ raw') → (∀ y, y ∈ ys ↔ y ∈ ys') →
  (∀ s, s ∈ seps ↔ s ∈ seps') →
  generate_wordlist raw ys include_leet include_case include_suffixes seps k n
  = generate_wordlist raw' ys' include_leet include_case include_suffixes
      seps' k n.
Proof.
  intros Hr Hy Hs. apply generate_wordlist_ext, final_set_ext; [|done].
  assert (base_tokens raw = base_tokens raw') as ->.
  { apply set_eq. intros x. rewrite !elem_of_base_tokens.
    by setoid_rewrite Hr. }
  by apply combine_tokens_ext.
Qed.

(** X17.  Raw inputs that are empty or only whitespace do not change the
    output. *)
Theorem generate_wordlist_blank_inputs (raw ys seps : list string)
    (include_leet include_case include_suffixes : bool) (k n : Z) :
  generate_wordlist raw ys include_leet include_case include_suffixes seps k n
  = generate_wordlist (filter (λ i, strip i ≠ "") raw) ys include_leet
      include_case include_suffixes seps k n.
Proof.
  apply generate_wordlist_ext, final_set_ext; [|done].
  apply combine_tokens_of_sets. intros t Hne.
  rewrite !elem_of_expanded_tokens. split.
  - intros (tok & cv & Htok & Hcv & Ht). exists tok, cv.
    split_and!; try done. rewrite <- base_tokens_nonblank; [done|].
    intros ->. apply length_leet_variants in Ht.
    apply length_case_set_any in Hcv. simpl in Hcv.
    rewrite Hcv in Ht. by apply length_zero_empty in Ht.
  - intros (tok & cv & Htok & Hcv & Ht). exists tok, cv.
    split_and!; try done. revert Htok. rewrite !elem_of_base_tokens.
    intros (item & [_ ?]%list_elem_of_filter & ? & ?). eauto.
Qed.

Lemma generate_wordlist_nil raw ys include_leet include_case include_suffixes
    seps k n :
  generate_wordlist raw ys include_leet include_case include_suffixes seps k n
  = [] ↔
  final_set raw ys include_leet include_case include_suffixes seps k = ∅.
Proof.
  unfold generate_wordlist.
  set (F := final_set _ _ _ _ _ _ _).
  assert (merge_sort key_le (elements F) = [] ↔ F = ∅) as HL.
  { split.
    - intros H. apply leibniz_equiv, elements_empty_iff.
      pose proof (Permutation_length
                    (merge_sort_Permutation key_le (elements F))) as Hl.
      rewrite H in Hl. symmetry in Hl. by apply nil_length_inv in Hl.
    - intros ->. by rewrite elements_empty. }
  case_decide; [|done]. rewrite <- HL.
  destruct (merge_sort key_le (elements F)) as [|x l]; [by rewrite take_nil|].
  destruct (Z.to_nat n) eqn:Hn; [lia|]. done.
Qed.

Lemma final_set_empty raw ys include_leet include_case include_suffixes
    seps k :
  final_set raw ys include_leet include_case include_suffixes seps k = ∅ ↔
  combine_tokens
    (merge_sort String.le
       (elements (expanded_tokens include_leet include_case
                    (base_tokens raw)))) k seps = ∅.
Proof.
  split; intros H; apply set_eq; intros x;
    (split; [|by intros ?%not_elem_of_empty]); intros Hx.
  - assert (x ∈ final_set raw ys include_leet include_case include_suffixes
                    seps k) as Hin.
    { apply elem_of_final_set. exists x, "", "".
      rewrite !app_empty_r. auto. }
    by rewrite H in Hin.
  - apply elem_of_final_set in Hx as (c & y & s & Hc & _). by rewrite H in Hc.
Qed.

Lemma strip_empty : strip "" = "".
Proof. reflexivity. Qed.

(** All expanded tokens are empty exactly when all raw inputs are blank. *)
Lemma expanded_tokens_all_empty raw include_leet include_case :
  Forall (λ t, t = "")
    (merge_sort String.le
       (elements (expanded_tokens include_leet include_case
                    (base_tokens raw))))
  ↔ Forall (λ i, strip i = "") raw.
Proof.
  rewrite !Forall_forall.
  setoid_rewrite merge_sort_Permutation. setoid_rewrite elem_of_elements.
  split.
  - intros H item Hin. destruct (decide (strip item = "")) as [|Hne]; [done|].
    exfalso. destruct (leet_variants_inhabited (strip item) include_leet)
      as [x Hx].
    assert (x ∈ expanded_tokens include_leet include_case (base_tokens raw))
      as Hex.
    { apply elem_of_expanded_tokens. exists (strip item), (strip item).
      split_and!; [|apply case_set_self|done].
      apply elem_of_base_tokens. exists item. split_and!; [done| |by left].
      intros ->. by rewrite strip_empty in Hne. }
    apply H in Hex. subst x. apply length_leet_variants in Hx.
    symmetry in Hx. by apply length_zero_empty in Hx.
  - intros H x (tok & Htok & Hlen)%expanded_tokens_length.
    apply elem_of_base_tokens in Htok as (item & Hin & _ & Ht).
    rewrite (H item Hin) in Ht.
    assert (tok = "") as -> by (destruct Ht as [?|[[]%elem_of_nil _]]; done).
    by apply length_zero_empty in Hlen.
Qed.

(** X18.  The output is empty exactly when the bound on tokens is below 1,
    there is no separator, or every raw input is blank. *)
Theorem generate_wordlist_empty (raw ys seps : list string)
    (include_leet include_case include_suffixes : bool) (k n : Z) :
  generate_wordlist raw ys include_leet include_case include_suffixes seps k n
  = [] ↔
  (k < 1)%Z ∨ seps = [] ∨ Forall (λ i, strip i = "") raw.
Proof.
  rewrite generate_wordlist_nil, final_set_empty, combine_tokens_empty_iff.
  by rewrite expanded_tokens_all_empty.
Qed.

(** ** Clamping: [generate_wordlist] and [main] *)

(** C7 (clamping), as the code has it.  [generate_wordlist] clamps
    nothing.  It reads every [max_words] up to 0 as no bound, so its
    output is the output for [max_words] clamped to at least 0.  Below 1,
    [max_tokens_per_combo] gives the empty list, which is the output for
    the clamped value 1 only when there is no separator or every raw input
    is blank.  The clamping is [main]'s, before the call: its output is
    that of [generate_wordlist] on the bound clamped to at least 1. *)
Theorem generate_wordlist_clamping (raw ys seps : list string)
    (include_leet include_case include_suffixes : bool) (k n : Z) :
  generate_wordlist raw ys include_leet include_case include_suffixes seps
    k n
  = generate_wordlist raw ys include_leet include_case include_suffixes seps
      k (Z.max 0 n)
  ∧ ((k < 1)%Z →
     generate_wordlist raw ys include_leet include_case include_suffixes
       seps k n = [])
  ∧ ((k < 1)%Z →
     generate_wordlist raw ys include_leet include_case include_suffixes
       seps k n
     = generate_wordlist raw ys include_leet include_case include_suffixes
         seps (Z.max 1 k) (Z.max 0 n)
     ↔ seps = [] ∨ Forall (λ i, strip i = "") raw)
  ∧ main_generate
      (Args raw ys include_leet include_case include_suffixes seps k n)
    = generate_wordlist raw ys include_leet include_case include_suffixes
        seps (Z.max 1 k) n.
Proof.
  assert (∀ k',
    generate_wordlist raw ys include_leet include_case include_suffixes seps
      k' n
    = generate_wordlist raw ys include_leet include_case include_suffixes
        seps k' (Z.max 0 n)) as Hwords.
  { intros k'. destruct (Z.le_gt_cases n 0) as [Hle|Hgt].
    - by rewrite !generate_wordlist_unlimited by lia.
    - by rewrite (Z.max_r 0 n) by lia. }
  split_and!.
  - apply Hwords.
  - apply generate_wordlist_combo_lt_1.
  - intros Hk. rewrite generate_wordlist_combo_lt_1 by done.
    rewrite (Z.max_l 1 k) by lia. split.
    + intros Heq. symmetry in Heq. revert Heq.
      rewrite generate_wordlist_nil, final_set_empty, combine_tokens_empty_iff,
        expanded_tokens_all_empty.
      intros [?|H]; [lia|done].
    + intros H. symmetry.
      rewrite generate_wordlist_nil, final_set_empty, combine_tokens_empty_iff,
        expanded_tokens_all_empty.
      by right.
  - unfold main_generate. simpl. symmetry. apply Hwords.
Qed.

Lemma generate_wordlist_clamping_witness :
  (0 < 1)%Z
  ∧ generate_wordlist ["Max"; "1999"] ["99"] true true true [""; "-"] 0 5
    = [].
Proof.
  assert (0 < 1)%Z as H by lia.
  split; [exact H|].
  exact (proj1 (proj2 (generate_wordlist_clamping ["Max"; "1999"] ["99"]
                         [""; "-"] true true true 0 5)) H).
Defined.

(** C7 as stated fails for [generate_wordlist]: with the bound 0 it returns
    nothing, with the clamped bound 1 it returns the two tokens. *)
Lemma generate_wordlist_clamping_counterexample :
  generate_wordlist ["Max"; "1999"] [] false false false [""; "-"] 0 (-1)
  ≠ generate_wordlist ["Max"; "1999"] [] false false false [""; "-"]
      (Z.max 1 0) (Z.max 0 (-1)).
Proof. decide_closed. Qed.

(** X19.  With leet substitution off, at least one token allowed per combination
    and at least one separator, the unbounded output lists every trimmed
    raw input and every fragment of it that is not empty. *)
Theorem generate_wordlist_keeps_seeds (raw ys seps : list string)
    (include_case include_suffixes : bool) (k n : Z) (item t : string) :
  item ∈ raw →
  t = strip item ∨ t ∈ re_split_keep_digits (strip item) →
  t ≠ "" → (1 ≤ k)%Z → seps ≠ [] → (n ≤ 0)%Z →
  t ∈ generate_wordlist raw ys false include_case include_suffixes seps k n.
Proof.
  intros Hin Ht Hne Hk Hseps Hn.
  rewrite generate_wordlist_unlimited, merge_sort_Permutation by done.
  apply elem_of_elements, elem_of_final_set. exists t, "", "".
  rewrite !app_empty_r. split_and!; auto.
  destruct seps as [|sep seps]; [done|].
  apply elem_of_combine_tokens_submseteq. exists sep, [t].
  split_and!; [left| |simpl; lia..|done].
  apply singleton_submseteq_l, list_elem_of_filter. split; [done|].
  rewrite merge_sort_Permutation. apply elem_of_elements.
  apply elem_of_expanded_tokens. exists t, t.
  split_and!; [|apply case_set_self|
    unfold leet_variants; simpl; by apply elem_of_singleton].
  apply elem_of_base_tokens. exists item. split_and!; [done| |].
  - intros ->. rewrite strip_empty in Ht.
    destruct Ht as [?|[]%elem_of_nil]; done.
  - destruct Ht; auto.
Qed.

Lemma generate_wordlist_keeps_seeds_witness :
  " john1985" ∈ [" john1985"; "rex"]
  ∧ ("1985" = strip " john1985"
     ∨ "1985" ∈ re_split_keep_digits (strip " john1985"))
  ∧ "1985" ≠ "" ∧ (1 ≤ 2)%Z ∧ ["-"] ≠ [] ∧ (0 ≤ 0)%Z
  ∧ "1985" ∈ generate_wordlist [" john1985"; "rex"] ["99"] false true true
               ["-"] 2 0.
Proof.
  assert (" john1985" ∈ [" john1985"; "rex"]) as H1 by decide_closed.
  assert ("1985" = strip " john1985"
          ∨ "1985" ∈ re_split_keep_digits (strip " john1985")) as H2
    by (right; decide_closed).
  assert ("1985" ≠ "") as H3 by decide_closed.
  assert (1 ≤ 2)%Z as H4 by lia.
  assert (["-"] ≠ ([] : list string)) as H5 by decide_closed.
  assert (0 ≤ 0)%Z as H6 by lia.
  split_and!; [exact H1|exact H2|exact H3|exact H4|exact H5|exact H6|].
  exact (generate_wordlist_keeps_seeds _ ["99"] _ true true 2 0 _ _
           H1 H2 H3 H4 H5 H6).
Defined.

Lemma generate_wordlist_inputs_as_sets_witness :
  (∀ i, i ∈ ["a"; "b1"] ↔ i ∈ ["b1"; "a"; "a"])
  ∧ (∀ y, y ∈ ["99"] ↔ y ∈ ["99"; "99"])
  ∧ (∀ s, s ∈ [""; "-"] ↔ s ∈ ["-"; ""])
  ∧ generate_wordlist ["a"; "b1"] ["99"] true true false [""; "-"] 2 10
    = generate_wordlist ["b1"; "a"; "a"] ["99"; "99"] true true false
        ["-"; ""] 2 10.
Proof.
  assert (∀ i : string, i ∈ ["a"; "b1"] ↔ i ∈ ["b1"; "a"; "a"]) as H1.
  { intros i. rewrite !elem_of_cons, !elem_of_nil. tauto. }
  assert (∀ y : string, y ∈ ["99"] ↔ y ∈ ["99"; "99"]) as H2.
  { intros y. rewrite !elem_of_cons, !elem_of_nil. tauto. }
  assert (∀ s : string, s ∈ [""; "-"] ↔ s ∈ ["-"; ""]) as H3.
  { intros s. rewrite !elem_of_cons, !elem_of_nil. tauto. }
  split_and!; [exact H1|exact H2|exact H3|].
  exact (generate_wordlist_inputs_as_sets _ _ _ _ _ _ true true false 2 10
           H1 H2 H3).
Defined.

Lemma generate_wordlist_unbounded_witness :
  (-3 ≤ 0)%Z
  ∧ length (generate_wordlist ["Max"; "1999"] [] false false false
              [""; "-"] 2 (-3))
    = size (final_set ["Max"; "1999"] [] false false false [""; "-"] 2).
Proof.
  assert (-3 ≤ 0)%Z as H by lia.
  split; [exact H|].
  exact (proj2 (proj2 (proj2 (generate_wordlist_unbounded ["Max"; "1999"] []
           false false false [""; "-"] 2 (-3) H)))).
Defined.

Lemma generate_wordlist_prefix_witness :
  (0 < 2)%Z ∧ (2 ≤ 4)%Z
  ∧ generate_wordlist ["Max"; "1999"] [] false false false [""; "-"] 2 2
    = take (Z.to_nat 2)
        (generate_wordlist ["Max"; "1999"] [] false false false
           [""; "-"] 2 4).
Proof.
  assert (0 < 2)%Z as H1 by lia.
  assert (2 ≤ 4)%Z as H2 by lia.
  split_and!; [exact H1|exact H2|].
  exact (proj1 (generate_wordlist_prefix ["Max"; "1999"] [] false false
                  false [""; "-"] 2 2 4 H1 H2)).
Defined.

(** ** The pipeline: growth *)

Lemma size_append_years_le (W : gset string) (sufs : list string) :
  size (append_years (elements W) sufs)
  ≤ size W * (1 + length (remove_dups sufs)).
Proof.
  rewrite <- append_years_remove_dups, append_years_eq.
  etrans; [apply size_list_to_set_le|]. by rewrite length_appended.
Qed.

Lemma length_remove_dups_le (l : list string) :
  length (remove_dups l) ≤ length l.
Proof. induction l; simpl; [done|]. case_decide; simpl; lia. Qed.

Lemma elem_of_leet_variants_off word x :
  x ∈ leet_variants word false ↔ x = word.
Proof. unfold leet_variants. simpl. apply elem_of_singleton. Qed.

Lemma elem_of_case_set_off tok cv : cv ∈ case_set false tok ↔ cv = tok.
Proof. unfold case_set. simpl. apply elem_of_singleton. Qed.

(** X20.  The expanded tokens, case expansion off: each is as long as
    the base token it comes from, whatever the leet flag.  With leet
    substitution off every base token is an expanded token, and with case
    expansion off too there is nothing more. *)
Theorem expanded_tokens_spec (include_leet include_case : bool)
    (base : gset string) :
  set_Forall (λ x, ∃ tok, tok ∈ base ∧ String.length x = String.length tok)
             (expanded_tokens include_leet false base)
  ∧ base ⊆ expanded_tokens false include_case base
  ∧ expanded_tokens false false base = base.
Proof.
  split_and!.
  - intros x (tok & cv & ? & ->%elem_of_case_set_off & Hx)
      %elem_of_expanded_tokens.
    exists tok. split; [done|]. by eapply length_leet_variants.
  - intros tok Htok. apply elem_of_expanded_tokens. exists tok, tok.
    split_and!; [done|apply case_set_self|by apply elem_of_leet_variants_off].
  - apply set_eq. intros x. rewrite elem_of_expanded_tokens. split.
    + intros (tok & cv & ? & ->%elem_of_case_set_off
                & ->%elem_of_leet_variants_off).
      done.
    + intros ?. exists x, x.
      split_and!; [done|by apply elem_of_case_set_off
                  |by apply elem_of_leet_variants_off].
Qed.

(** X21.  Every candidate starts with a non-empty expanded token. *)
Theorem final_set_starts_with_token (raw ys seps : list string)
    (include_leet include_case include_suffixes : bool) (k : Z) (x : string) :
  x ∈ final_set raw ys include_leet include_case include_suffixes seps k →
  ∃ t rest,
    t ∈ expanded_tokens include_leet include_case (base_tokens raw)
    ∧ t ≠ "" ∧ x = t +:+ rest.
Proof.
  intros (c & y & s & Hc & _ & _ & ->)%elem_of_final_set.
  apply elem_of_combine_tokens_submseteq in Hc
    as (sep & perm & _ & Hsub & Hlen & ->).
  destruct perm as [|t perm]; [simpl in Hlen; lia|].
  assert (t ∈ filter (λ t, t ≠ "")
                (merge_sort String.le (elements (expanded_tokens include_leet
                   include_case (base_tokens raw))))) as Ht.
  { eapply elem_of_submseteq; [|done]. left. }
  apply list_elem_of_filter in Ht as [Hne Ht].
  rewrite merge_sort_Permutation in Ht. apply elem_of_elements in Ht.
  destruct perm as [|t' perm].
  - exists t, (y +:+ s). simpl. by rewrite app_assoc_s.
  - exists t, ((sep +:+ join sep (t' :: perm)) +:+ y +:+ s).
    split_and!; [done..|].
    change (join sep (t :: t' :: perm))
      with (t +:+ sep +:+ join sep (t' :: perm)).
    by rewrite !app_assoc_s.
Qed.

Lemma final_set_starts_with_token_witness :
  "Max-1999" ∈ final_set ["Max"; "1999"] [] false false false [""; "-"] 2
  ∧ ∃ t rest,
      t ∈ expanded_tokens false false (base_tokens ["Max"; "1999"])
      ∧ t ≠ "" ∧ "Max-1999" = t +:+ rest.
Proof.
  assert ("Max-1999" ∈ final_set ["Max"; "1999"] [] false false false
                         [""; "-"] 2) as H by decide_closed.
  split; [exact H|].
  exact (final_set_starts_with_token _ _ _ _ _ _ _ _ H).
Defined.

(** X22.  More raw inputs, years or separators, a larger bound on tokens, case
    expansion or suffixes switched on: the final set only grows. *)
Theorem final_set_monotone (raw raw' ys ys' seps seps' : list string)
    (include_leet include_case include_case' : bool)
    (include_suffixes include_suffixes' : bool) (k k' : Z) :
  raw ⊆ raw' → ys ⊆ ys' → seps ⊆ seps' → (k ≤ k')%Z →
  (include_case = true → include_case' = true) →
  (include_suffixes = true → include_suffixes' = true) →
  final_set raw ys include_leet include_case include_suffixes seps k
  ⊆ final_set raw' ys' include_leet include_case' include_suffixes' seps' k'.
Proof.
  intros Hraw Hys Hseps Hk Hcase Hsuf x.
  rewrite !elem_of_final_set.
  intros (c & y & s & Hc & Hy & Hs & ->). exists c, y, s.
  split_and!; [|set_solver|naive_solver|done].
  apply elem_of_combine_tokens_submseteq in Hc
    as (sep & perm & Hsep & Hsub & Hlen & ->).
  apply elem_of_combine_tokens_submseteq. exists sep, perm.
  split_and!; [by apply Hseps| |lia..|done].
  apply NoDup_submseteq.
  - apply submseteq_Permutation in Hsub as [rest Hrest].
    assert (NoDup (perm ++ rest)) as Hnd.
    { rewrite <- Hrest. apply NoDup_filter.
      rewrite merge_sort_Permutation. apply NoDup_elements. }
    by apply NoDup_app in Hnd as [? _].
  - intros t Ht. pose proof (elem_of_submseteq _ _ _ Ht Hsub) as Hin.
    revert Hin. rewrite !list_elem_of_filter, !merge_sort_Permutation,
      !elem_of_elements, !elem_of_expanded_tokens.
    intros [Hne (tok & cv & Htok & Hcv & Hx)]. split; [done|].
    exists tok, cv. split_and!; [| |done].
    + revert Htok. rewrite !elem_of_base_tokens.
      intros (item & ? & ? & ?). exists item. split_and!; auto.
    + destruct include_case, include_case'; try done.
      * by specialize (Hcase eq_refl).
      * unfold case_set in *. simpl in *. set_solver.
Qed.

Lemma final_set_monotone_witness :
  ["a"] ⊆ ["a"; "b"] ∧ [] ⊆ ["99"] ∧ ["-"] ⊆ ["-"; "_"] ∧ (1 ≤ 2)%Z
  ∧ (false = true → true = true) ∧ (false = true → true = true)
  ∧ final_set ["a"] [] true false false ["-"] 1
    ⊆ final_set ["a"; "b"] ["99"] true true true ["-"; "_"] 2.
Proof.
  assert (["a"] ⊆ ["a"; "b"]) as H1 by set_solver.
  assert (([] : list string) ⊆ ["99"]) as H2 by set_solver.
  assert (["-"] ⊆ ["-"; "_"]) as H3 by set_solver.
  assert (1 ≤ 2)%Z as H4 by lia.
  assert (false = true → true = true) as H5 by done.
  split_and!; [exact H1|exact H2|exact H3|exact H4|exact H5|exact H5|].
  exact (final_set_monotone _ _ _ _ _ _ true false true false true 1 2
           H1 H2 H3 H4 H5 H5).
Defined.

(** X23.  The final set has at most [(1 + y) * s] candidates per combined
    string, [y] being the number of years and [s] 17 with the suffixes
    and 1 without. *)
Theorem final_set_size (raw ys seps : list string)
    (include_leet include_case include_suffixes : bool) (k : Z) :
  size (final_set raw ys include_leet include_case include_suffixes seps k)
  ≤ size (combine_tokens
            (merge_sort String.le
               (elements (expanded_tokens include_leet include_case
                            (base_tokens raw)))) k seps)
    * (1 + length ys) * (if include_suffixes then 17 else 1).
Proof.
  unfold final_set. set (combined := combine_tokens _ _ _).
  set (with_years := match ys with [] => combined | _ => _ end).
  assert (size with_years ≤ size combined * (1 + length ys)) as Hy.
  { subst with_years. destruct ys as [|y ys'] eqn:E; [simpl; lia|].
    rewrite <- E. etrans; [apply size_append_years_le|].
    apply Nat.mul_le_mono_l.
    pose proof (length_remove_dups_le ys). lia. }
  destruct include_suffixes; [|lia].
  etrans; [apply size_append_years_le|].
  change (length (remove_dups COMMON_SUFFIXES)) with 16.
  apply Nat.mul_le_mono_r. done.
Qed.

(** ** The score table *)

Lemma entropy_table_outside score :
  (score < 0 ∨ 4 < score)%Z → entropy_table !! score = None.
Proof.
  intros H. unfold entropy_table.
  apply not_elem_of_list_to_map_1. simpl.
  rewrite !elem_of_cons, elem_of_nil. lia.
Qed.

(** X24.  A score outside 0..4 gets 0.0 bits, as score 0 does, instead of
    an error; from 0 to 4 the bits never decrease with the score; every
    result lies between 0.0 and 60.0. *)
Theorem entropy_from_score_spec (s t : Z) :
  ((s < 0 ∨ 4 < s)%Z → entropy_from_score s = 0.0%float)
  ∧ ((0 ≤ s ≤ t)%Z ∧ (t ≤ 4)%Z →
     PrimFloat.leb (entropy_from_score s) (entropy_from_score t) = true)
  ∧ PrimFloat.leb 0.0%float (entropy_from_score s) = true
  ∧ PrimFloat.leb (entropy_from_score s) 60.0%float = true.
Proof.
  assert (∀ u, (u < 0 ∨ 4 < u)%Z → entropy_from_score u = 0.0%float) as Hout.
  { intros u Hu. unfold entropy_from_score.
    by rewrite entropy_table_outside. }
  assert (∀ u, (0 ≤ u ≤ 4)%Z → u = 0 ∨ u = 1 ∨ u = 2 ∨ u = 3 ∨ u = 4)%Z
    as Hin by lia.
  split_and!.
  - apply Hout.
  - intros [Hs Ht].
    destruct (Hin s ltac:(lia)) as [->|[->|[->|[->| ->]]]];
    destruct (Hin t ltac:(lia)) as [->|[->|[->|[->| ->]]]];
      try lia; by vm_compute.
  - destruct (decide (0 ≤ s ≤ 4)%Z) as [H|H].
    + destruct (Hin s H) as [->|[->|[->|[->| ->]]]]; by vm_compute.
    + rewrite Hout by lia. by vm_compute.
  - destruct (decide (0 ≤ s ≤ 4)%Z) as [H|H].
    + destruct (Hin s H) as [->|[->|[->|[->| ->]]]]; by vm_compute.
    + rewrite Hout by lia. by vm_compute.
Qed.

Lemma entropy_from_score_spec_witness :
  (7 < 0 ∨ 4 < 7)%Z ∧ entropy_from_score 7 = 0.0%float.
Proof.
  assert (7 < 0 ∨ 4 < 7)%Z as H by lia.
  split; [exact H|]. exact (proj1 (entropy_from_score_spec 7 7) H).
Defined.

(** ** The output text *)

Lemma file_text_fold lines acc :
  fold_left (λ content line, content +:+ (line +:+ newline)) lines acc
  = acc +:+ file_text lines.
Proof.
  unfold file_text. revert acc.
  induction lines as [|l lines IH]; intros acc; simpl.
  - by rewrite app_empty_r.
  - rewrite (IH (acc +:+ _)), (IH ("" +:+ _)).
    by rewrite app_empty_l, app_assoc_s.
Qed.

Lemma file_text_cons l lines :
  file_text (l :: lines) = (l +:+ newline) +:+ file_text lines.
Proof. unfold file_text at 1. simpl. apply file_text_fold. Qed.

Lemma file_text_print lines : lines ≠ [] → file_text lines = print_words lines.
Proof.
  induction lines as [|l lines IH]; [done|]. intros _.
  rewrite file_text_cons. unfold print_words in *.
  destruct lines as [|l' lines]; [by rewrite app_empty_r|].
  rewrite IH by done.
  change (join newline (l :: l' :: lines))
    with (l +:+ newline +:+ join newline (l' :: lines)).
  by rewrite !app_assoc_s.
Qed.

(** X25.  For a wordlist that is not empty, the text that the loop of
    [write_lines] writes is the text that [main] prints when no output
    file is given; for the empty wordlist nothing is written while one
    newline is printed; the text written has one character more than each
    line. *)
Theorem file_text_spec (lines : list string) :
  (lines ≠ [] → file_text lines = print_words lines)
  ∧ (lines = [] → file_text lines = "" ∧ print_words lines = newline)
  ∧ String.length (file_text lines)
    = sum_list (String.length <$> lines) + length lines.
Proof.
  split_and!.
  - apply file_text_print.
  - by intros ->.
  - induction lines as [|l lines IH]; [done|].
    rewrite file_text_cons, !length_app_s, IH, fmap_cons. simpl. lia.
Qed.

Lemma file_text_spec_witness :
  ["ab"; "c"] ≠ [] ∧ file_text ["ab"; "c"] = print_words ["ab"; "c"].
Proof.
  assert (["ab"; "c"] ≠ ([] : list string)) as H by decide_closed.
  split; [exact H|]. exact (proj1 (file_text_spec ["ab"; "c"]) H).
Defined.

(** ** Examples from the documentation *)

Example split_john : re_split_keep_digits "john1985" = ["john"; "1985"].
Proof. reflexivity. Qed.

Example split_abc : re_split_keep_digits "abc123de" = ["abc"; "123"; "de"].
Proof. reflexivity. Qed.

Example leet_it :
  leet_variants "it" true = {[ "it"; "i7"; "1t"; "17"; "!t"; "!7" ]}.
Proof. by vm_compute. Qed.

Example permutations_3_2 :
  permutations [1; 2; 3] 2 = [[1; 2]; [1; 3]; [2; 1]; [2; 3]; [3; 1]; [3; 2]].
Proof. reflexivity. Qed.

Example end_to_end :
  generate_wordlist ["Max"; "1999"] [] false false false [""; "-"] 2 0
  = ["Max"; "1999"; "1999Max"; "Max1999"; "1999-Max"; "Max-1999"].
Proof. by vm_compute. Qed.

Example unclamped_combo :
  generate_wordlist ["Max"; "1999"] [] false false false [""; "-"] 0 0 = []
  ∧ main_generate (Args ["Max"; "1999"] [] false false false [""; "-"] 0 (-5))
    = ["Max"; "1999"].
Proof. split; by vm_compute. Qed.
